(** * Pool rebalance utilities of the relayer's dataworker

    A shallow embedding of [PoolRebalanceUtils]: the running-balance ledger,
    the correction for slow fills financed by an earlier root bundle, the
    transfer-threshold policy and the construction of pool rebalance leaves.

    Conventions of the embedding.
    - A [BigNumber] is an unbounded signed integer: [Z].
    - Chain ids and block numbers are JavaScript numbers holding naturals: [N];
      counts and array indices are [nat].
    - An address is modelled by its numeric value (what [toBN] makes of the
      hex string, and what [compareAddresses] orders): [N].  Object keys are
      taken to be normalised, so distinct keys are distinct addresses.
    - A JavaScript object used as a dictionary is a [gmap]; the order in which
      [Object.keys] enumerates it is not fixed by the model (see
      [ObjectKeys]).
    - A value that may be [undefined] is an [option].
    - A call either returns, throws, or does not terminate: [Outcome].
    - The parameters [runningBalances] and [realizedLpFees] of the source are
      called [ledger] and [lpFees] here, the two names being those of a field
      of [PoolRebalanceLeaf] and of an entry of [FillsToRefund]. *)

From stdpp Require Import strings sorting gmap.

Open Scope Z_scope.

(** ** Outcomes *)

Inductive Exn : Type :=
  | Error (message : string)
  | TypeError.

Inductive Outcome (A : Type) : Type :=
  | Returns (a : A)
  | Throws (e : Exn)
  | Diverges.

Arguments Returns {A} a.
Arguments Throws {A} e.
Arguments Diverges {A}.

#[export] Instance Outcome_ret : MRet Outcome := λ A, Returns.

#[export] Instance Outcome_bind : MBind Outcome := λ A B k o,
  match o with
  | Returns a => k a
  | Throws e => Throws e
  | Diverges => Diverges
  end.

(** ** Enumeration of object keys

    [Object.keys] lists every key of an object once.  Its order (ascending for
    integer-like keys, insertion order for the others) depends on the history
    of the object, which a [gmap] does not record, so the order is a parameter
    of the model: any enumeration of the bindings will do. *)

Class ObjectKeys := {
  objectEntries : ∀ {V : Type}, gmap N V → list (N * V);
  objectEntries_perm : ∀ {V : Type} (m : gmap N V), objectEntries m ≡ₚ map_to_list m
}.

Definition objectKeys `{ObjectKeys} {V : Type} (m : gmap N V) : list N :=
  (objectEntries m).*1.

(** The enumeration built into [gmap]. *)
Definition mapOrderKeys : ObjectKeys := {|
  objectEntries := λ V m, map_to_list m;
  objectEntries_perm := λ V m, reflexivity (map_to_list m)
|}.

(** The same enumeration backwards: a second order to compare against. *)
Definition reverseOrderKeys : ObjectKeys := {|
  objectEntries := λ V m, reverse (map_to_list m);
  objectEntries_perm := λ V m, reverse_Permutation (map_to_list m)
|}.

(** ** Data model *)

(** [interfaces.RunningBalances]: chain id, then L1 token, to amount. *)
Abbreviation RunningBalances := (gmap N (gmap N Z)) (only parsing).

(** The fields of [FillWithBlock] this module reads. *)
Record FillWithBlock : Type := {
  amount : Z;
  totalFilledAmount : Z;
  fillAmount : Z;
  destinationChainId : N;
  destinationToken : N;
  blockNumber : N;
  isSlowRelay : bool
}.

(** The methods of [HubPoolClient] this module calls. *)
Record HubPoolClient : Type := {
  getL1TokenCounterpartAtBlock : N → N → N → N;
  getRootBundleEvalBlockNumberContainingBlock : N → N → list N → option N
}.

(** The methods of [AcrossConfigStoreClient] this module calls. *)
Record AcrossConfigStoreClient : Type := {
  getMaxRefundCountForRelayerRefundLeafForBlock : N → nat;
  getTokenTransferThresholdForBlock : N → N → Z
}.

(** What [getFillDataForSlowFillFromPreviousRootBundle] hands back. *)
Record FillData : Type := {
  lastFillBeforeSlowFillIncludedInRoot : option FillWithBlock;
  rootBundleEndBlockContainingFirstFill : option N
}.

(** An entry of [interfaces.FillsToRefund]. *)
Record RefundEntry : Type := {
  totalRefundAmount : option Z;
  realizedLpFees : Z
}.

Record PoolRebalanceLeaf : Type := {
  chainId : N;
  bundleLpFees : list (option Z);
  netSendAmounts : list Z;
  runningBalances : list Z;
  groupIndex : nat;
  leafId : nat;
  l1Tokens : list N
}.

(** The amount held by a bucket of a ledger, if the bucket exists. *)
Definition bucket {V : Type} (ledger : gmap N (gmap N V)) (chain token : N) : option V :=
  ledger !! chain ≫= λ forChain, forChain !! token.

(** The balance of a bucket, a missing bucket counting for zero. *)
Definition balanceOf (ledger : RunningBalances) (chain token : N) : Z :=
  default 0 (bucket ledger chain token).

(** ** Threshold policy *)

Definition getNetSendAmountForL1Token (transferThreshold runningBalance : Z) : Z :=
  if Z.abs runningBalance >=? transferThreshold then runningBalance else 0.

Definition getRunningBalanceForL1Token (transferThreshold runningBalance : Z) : Z :=
  if Z.abs runningBalance <? transferThreshold then runningBalance else 0.

(** ** Running balance updates *)

Definition updateRunningBalance (ledger : RunningBalances) (l2ChainId l1Token : N)
    (updateAmount : Z) : RunningBalances :=
  let forChain := default ∅ (ledger !! l2ChainId) in
  let updated :=
    match forChain !! l1Token with
    | Some runningBalance => runningBalance + updateAmount
    | None => updateAmount
    end in
  <[l2ChainId := <[l1Token := updated]> forChain]> ledger.

Definition updateRunningBalanceForFill (ledger : RunningBalances) (hubPoolClient : HubPoolClient)
    (fill : FillWithBlock) (updateAmount : Z) : RunningBalances :=
  let l1TokenCounterpart :=
    getL1TokenCounterpartAtBlock hubPoolClient
      (destinationChainId fill) (destinationToken fill) (blockNumber fill) in
  updateRunningBalance ledger (destinationChainId fill) l1TokenCounterpart updateAmount.

(** ** Excess from previous slow fills *)

Section ExcessCorrection.

(** [getFillDataForSlowFillFromPreviousRootBundle] lives in [FillUtils]: it
    is the fill-history query the correction consumes. *)
Variable getFillDataForSlowFillFromPreviousRootBundle :
  FillWithBlock → list FillWithBlock → HubPoolClient → list N → FillData.

Variable hubPoolClient : HubPoolClient.
Variable allValidFills : list FillWithBlock.
Variable chainIdListForBundleEvaluationBlockNumbers : list N.

Definition missingLastFill : Exn :=
  Error "Can't find last fill submitted before slow fill was included in root bundle proposal".

(** The body of the [forEach] callback.  The ledger is mutated in place, so
    the ledger as it stands is handed back whatever the outcome. *)
Definition subtractExcessForFill (ledger : RunningBalances) (fill : FillWithBlock)
    : RunningBalances * Outcome unit :=
  let fillData :=
    getFillDataForSlowFillFromPreviousRootBundle
      fill allValidFills hubPoolClient chainIdListForBundleEvaluationBlockNumbers in
  if totalFilledAmount fill =? amount fill then
    let rootBundleEndBlockContainingFullFill :=
      getRootBundleEvalBlockNumberContainingBlock hubPoolClient
        (blockNumber fill) (destinationChainId fill)
        chainIdListForBundleEvaluationBlockNumbers in
    if decide (rootBundleEndBlockContainingFirstFill fillData
               = rootBundleEndBlockContainingFullFill) then (ledger, Returns ())
    else
      match lastFillBeforeSlowFillIncludedInRoot fillData with
      | None => (ledger, Throws missingLastFill)
      | Some lastFill =>
          let amountSentForSlowFill := amount lastFill - totalFilledAmount lastFill in
          let excess :=
            if isSlowRelay fill then amountSentForSlowFill - fillAmount fill
            else amountSentForSlowFill in
          if excess =? 0 then (ledger, Returns ())
          else (updateRunningBalanceForFill ledger hubPoolClient fill (excess * -1),
                Returns ())
      end
  else (ledger, Returns ()).

(** [forEach] over the fills: an exception ends the loop. *)
Fixpoint forEachFill (fills : list FillWithBlock) (ledger : RunningBalances)
    : RunningBalances * Outcome unit :=
  match fills with
  | [] => (ledger, Returns ())
  | fill :: rest =>
      match subtractExcessForFill ledger fill with
      | (ledger', Returns _) => forEachFill rest ledger'
      | stopped => stopped
      end
  end.

Definition subtractExcessFromPreviousSlowFillsFromRunningBalances
    (ledger : RunningBalances) : RunningBalances * Outcome unit :=
  forEachFill allValidFills ledger.

End ExcessCorrection.

(** ** Running balances from relayer repayments *)

Section RelayerRepayments.

Context `{ObjectKeys}.

(** What [assign] leaves at a key path that already holds a value. *)
Variable assignExisting : Z → Z → Z.

(** Modelled from the spec: [assign] is imported from [utils] and its body is
    missing.  The spec has the refund amount added to the bucket of a fresh
    ledger and the fees recorded: the value is stored at the key path, the
    object for the chain being created when it is not there.  Whether a value
    already at the path is added to, merged or overwritten cannot be told
    from the module, and is left to [assignExisting]. *)
Definition assign (obj : RunningBalances) (key1 key2 : N) (value : Z) : RunningBalances :=
  let inner := default ∅ (obj !! key1) in
  let stored :=
    match inner !! key2 with
    | Some existing => assignExisting existing value
    | None => value
    end in
  <[key1 := <[key2 := stored]> inner]> obj.

(** The body of the inner [forEach]: one repayment chain and L2 token. *)
Definition recordRepayment (latestMainnetBlock : N) (hubPoolClient : HubPoolClient)
    (repaymentChainId : N) (ledgers : RunningBalances * RunningBalances)
    (refund : N * RefundEntry) : RunningBalances * RunningBalances :=
  let '(ledger, lpFees) := ledgers in
  let '(l2TokenAddress, entry) := refund in
  let l1TokenCounterpart :=
    getL1TokenCounterpartAtBlock hubPoolClient repaymentChainId l2TokenAddress
      latestMainnetBlock in
  let lpFees' := assign lpFees repaymentChainId l1TokenCounterpart (realizedLpFees entry) in
  match totalRefundAmount entry with
  | Some refundAmount =>
      (assign ledger repaymentChainId l1TokenCounterpart refundAmount, lpFees')
  | None => (ledger, lpFees')
  end.

(** Returns the pair [(runningBalances, realizedLpFees)].  Each enumerated key
    comes with the value the object holds for it. *)
Definition initializeRunningBalancesFromRelayerRepayments (latestMainnetBlock : N)
    (hubPoolClient : HubPoolClient) (fillsToRefund : gmap N (gmap N RefundEntry))
    : RunningBalances * RunningBalances :=
  if (0 <? length (objectKeys fillsToRefund))%nat then
    foldl (λ ledgers '(repaymentChainId, refundsForChain),
             foldl (recordRepayment latestMainnetBlock hubPoolClient repaymentChainId)
                   ledgers (objectEntries refundsForChain))
          (∅, ∅) (objectEntries fillsToRefund)
  else (∅, ∅).

End RelayerRepayments.

(** ** Pool rebalance leaves *)

(** [.sort((a, b) => Number(a) - Number(b))] on chain ids. *)
Definition sortChainIds : list N → list N := merge_sort N.le.

(** Modelled from the spec: [compareAddresses] is imported from [utils] and its
    body is missing.  The spec has the tokens of a chain sorted by ascending
    address: [.sort(compareAddresses)] sorts by numeric value. *)
Definition sortAddresses : list N → list N := merge_sort N.le.

Section LeafBuilder.

Context `{ObjectKeys}.

Variable latestMainnetBlock : N.
Variable ledger : RunningBalances.
Variable lpFees : RunningBalances.
Variable configStoreClient : AcrossConfigStoreClient.
Variable maxL1TokenCount : option nat.
Variable tokenTransferThreshold : option (gmap N Z).

(** [maxL1TokenCount || configStoreClient.get...()]: an absent or zero
    override falls through to the config store. *)
Definition maxL1TokensPerLeaf : nat :=
  match maxL1TokenCount with
  | Some (S n) => S n
  | _ => getMaxRefundCountForRelayerRefundLeafForBlock configStoreClient latestMainnetBlock
  end.

(** [tokenTransferThreshold[l1Token] || configStoreClient.get...()]: indexing
    an absent table throws. *)
Definition transferThresholdFor (l1Token : N) : Outcome Z :=
  match tokenTransferThreshold with
  | None => Throws TypeError
  | Some thresholds =>
      Returns (match thresholds !! l1Token with
               | Some threshold => threshold
               | None => getTokenTransferThresholdForBlock configStoreClient l1Token
                           latestMainnetBlock
               end)
  end.

(** [runningBalances[chainId][l1Token]], on which [abs] is then called. *)
Definition runningBalanceFor (forChain : gmap N Z) (l1Token : N) : Outcome Z :=
  match forChain !! l1Token with
  | Some runningBalance => Returns runningBalance
  | None => Throws TypeError
  end.

(** The leaf pushed by one turn of the loop; [transferThresholds[index]] is
    paired with the token at [index]. *)
Definition makeLeaf (chain : N) (l1TokensToIncludeInThisLeaf : list N)
    (groupIndexForChainId leafCount : nat) : Outcome PoolRebalanceLeaf :=
  transferThresholds ← mapM transferThresholdFor l1TokensToIncludeInThisLeaf;
  let thresholdAndToken := zip transferThresholds l1TokensToIncludeInThisLeaf in
  let fees :=
    match lpFees !! chain with
    | Some feesForChain => (λ l1Token, feesForChain !! l1Token) <$> l1TokensToIncludeInThisLeaf
    | None => replicate (length l1TokensToIncludeInThisLeaf) (Some 0)
    end in
  netSends ←
    match ledger !! chain with
    | Some forChain =>
        mapM (λ '(threshold, l1Token),
                runningBalance ← runningBalanceFor forChain l1Token;
                mret (getNetSendAmountForL1Token threshold runningBalance))
             thresholdAndToken
    | None => mret (replicate (length l1TokensToIncludeInThisLeaf) 0)
    end;
  balances ←
    match ledger !! chain with
    | Some forChain =>
        mapM (λ '(threshold, l1Token),
                runningBalance ← runningBalanceFor forChain l1Token;
                mret (getRunningBalanceForL1Token threshold runningBalance))
             thresholdAndToken
    | None => mret (replicate (length l1TokensToIncludeInThisLeaf) 0)
    end;
  mret {| chainId := chain;
          bundleLpFees := fees;
          netSendAmounts := netSends;
          runningBalances := balances;
          groupIndex := groupIndexForChainId;
          leafId := leafCount;
          l1Tokens := l1TokensToIncludeInThisLeaf |}.

(** The [for] loop over the sorted tokens of one chain.  Each turn needs one
    unit of [fuel]; the loop is started with as much fuel as there are tokens,
    which runs out only when the step is zero and the loop never ends. *)
Fixpoint leafLoop (chain : N) (sortedL1Tokens : list N) (fuel i groupIndexForChainId : nat)
    (leaves : list PoolRebalanceLeaf) : Outcome (list PoolRebalanceLeaf) :=
  if (i <? length sortedL1Tokens)%nat then
    match fuel with
    | O => Diverges
    | S fuel' =>
        leaf ← makeLeaf chain (take maxL1TokensPerLeaf (drop i sortedL1Tokens))
                 groupIndexForChainId (length leaves);
        leafLoop chain sortedL1Tokens fuel' (i + maxL1TokensPerLeaf)
          (S groupIndexForChainId) (leaves ++ [leaf])
    end
  else Returns leaves.

(** The callback run for one chain id. *)
Definition leavesForChain (leaves : list PoolRebalanceLeaf) (chain : N)
    : Outcome (list PoolRebalanceLeaf) :=
  match ledger !! chain with
  | None => Throws TypeError
  | Some forChain =>
      let sortedL1Tokens := sortAddresses (objectKeys forChain) in
      leafLoop chain sortedL1Tokens (length sortedL1Tokens) 0 0 leaves
  end.

Fixpoint forEachChain (chains : list N) (leaves : list PoolRebalanceLeaf)
    : Outcome (list PoolRebalanceLeaf) :=
  match chains with
  | [] => Returns leaves
  | chain :: rest => leaves' ← leavesForChain leaves chain; forEachChain rest leaves'
  end.

Definition constructPoolRebalanceLeaves : Outcome (list PoolRebalanceLeaf) :=
  forEachChain (sortChainIds (objectKeys ledger)) [].

End LeafBuilder.

(** * Notions the properties are stated with *)

(** ** What the correction reads for a fill *)

Section ExcessCorrectionNotions.

Variable getFillData : FillWithBlock → list FillWithBlock → HubPoolClient → list N → FillData.
Variable hubPoolClient : HubPoolClient.
Variable allValidFills : list FillWithBlock.
Variable chainIds : list N.

(** The window (by end block) holding the first fill of the deposit. *)
Definition firstFillWindow (fill : FillWithBlock) : option N :=
  rootBundleEndBlockContainingFirstFill (getFillData fill allValidFills hubPoolClient chainIds).

(** The window (by end block) holding the fill itself. *)
Definition fullFillWindow (fill : FillWithBlock) : option N :=
  getRootBundleEvalBlockNumberContainingBlock hubPoolClient
    (blockNumber fill) (destinationChainId fill) chainIds.

(** The last fill of the deposit sent before a slow fill was financed. *)
Definition reservationFill (fill : FillWithBlock) : option FillWithBlock :=
  lastFillBeforeSlowFillIncludedInRoot (getFillData fill allValidFills hubPoolClient chainIds).

(** The settlement token of the bucket a fill is booked on. *)
Definition settlementToken (fill : FillWithBlock) : N :=
  getL1TokenCounterpartAtBlock hubPoolClient
    (destinationChainId fill) (destinationToken fill) (blockNumber fill).

End ExcessCorrectionNotions.

(** ** What the repayments store *)

Section RepaymentNotions.

Context `{ObjectKeys}.
Variable assignExisting : Z → Z → Z.
Variable latestMainnetBlock : N.
Variable hubPoolClient : HubPoolClient.

(** Every (repayment chain, (L2 token, entry)) of [fillsToRefund], in the
    order the two nested loops visit them. *)
Definition repaymentPairs (fillsToRefund : gmap N (gmap N RefundEntry))
    : list (N * (N * RefundEntry)) :=
  objectEntries fillsToRefund ≫= λ '(c, refundsForChain),
    (λ refund, (c, refund)) <$> objectEntries refundsForChain.

(** What a visit stores in the running balances, and in the fee ledger. *)
Definition refundWrite (pair : N * (N * RefundEntry)) : option (N * N * Z) :=
  (λ refundAmount,
     (pair.1,
      getL1TokenCounterpartAtBlock hubPoolClient pair.1 pair.2.1 latestMainnetBlock,
      refundAmount))
    <$> totalRefundAmount pair.2.2.

Definition feeWrite (pair : N * (N * RefundEntry)) : N * N * Z :=
  (pair.1,
   getL1TokenCounterpartAtBlock hubPoolClient pair.1 pair.2.1 latestMainnetBlock,
   realizedLpFees pair.2.2).

Definition applyWrites (writes : list (N * N * Z)) (obj : RunningBalances) : RunningBalances :=
  foldl (λ o w, assign assignExisting o w.1.1 w.1.2 w.2) obj writes.

End RepaymentNotions.

(** ** What the leaves look like *)

(** The four sequences of a leaf go together, [maxTokens] long at most. *)
Definition leafShape (maxTokens : nat) (leaf : PoolRebalanceLeaf) : Prop :=
  length (bundleLpFees leaf) = length (l1Tokens leaf)
  ∧ length (netSendAmounts leaf) = length (l1Tokens leaf)
  ∧ length (runningBalances leaf) = length (l1Tokens leaf)
  ∧ (length (l1Tokens leaf) ≤ maxTokens)%nat.

(** [leaves] are the leaves of [chain] for the tokens of [sorted] from
    position [i] on, [maxTokens] at a time, numbered from [group] within the
    chain and from [id] within the bundle. *)
Fixpoint leavesFrom (maxTokens : nat) (chain : N) (sorted : list N) (i group id : nat)
    (leaves : list PoolRebalanceLeaf) : Prop :=
  match leaves with
  | [] => (length sorted ≤ i)%nat
  | leaf :: rest =>
      (i < length sorted)%nat
      ∧ chainId leaf = chain
      ∧ groupIndex leaf = group
      ∧ leafId leaf = id
      ∧ l1Tokens leaf = take maxTokens (drop i sorted)
      ∧ length (bundleLpFees leaf) = length (l1Tokens leaf)
      ∧ length (netSendAmounts leaf) = length (l1Tokens leaf)
      ∧ length (runningBalances leaf) = length (l1Tokens leaf)
      ∧ leavesFrom maxTokens chain sorted (i + maxTokens) (S group) (S id) rest
  end.

(** [leaves] are the leaves of the chains of [chains], chain after chain. *)
Fixpoint bundleFrom `{ObjectKeys} (maxTokens : nat) (ledger : RunningBalances)
    (chains : list N) (id : nat) (leaves : list PoolRebalanceLeaf) : Prop :=
  match chains with
  | [] => leaves = []
  | chain :: rest =>
      ∃ forChain mine others,
        ledger !! chain = Some forChain
        ∧ leaves = mine ++ others
        ∧ leavesFrom maxTokens chain (sortAddresses (objectKeys forChain)) 0 0 id mine
        ∧ bundleFrom maxTokens ledger rest (id + length mine) others
  end.

(** Emission order: by chain id first, by group within a chain. *)
Definition leafBefore (a b : PoolRebalanceLeaf) : Prop :=
  (chainId a < chainId b)%N
  ∨ (chainId a = chainId b ∧ (groupIndex a < groupIndex b)%nat).

(** * Sample inputs *)

(** Settlement tokens are the L2 token plus 100; one past bundle ended at
    block 50, later blocks belong to the bundle being built. *)
Definition sampleHub : HubPoolClient := {|
  getL1TokenCounterpartAtBlock := λ chain token block, (token + 100)%N;
  getRootBundleEvalBlockNumberContainingBlock := λ block chain chains,
    if (block <=? 50)%N then Some 50%N else None
|}.

(** A deposit of 100 filled up to 60 in the past bundle. *)
Definition partialFill : FillWithBlock := {|
  amount := 100; totalFilledAmount := 60; fillAmount := 60;
  destinationChainId := 10; destinationToken := 7; blockNumber := 40;
  isSlowRelay := false
|}.

(** The fill of the remaining 40, sent by a relayer. *)
Definition completingFill : FillWithBlock := {|
  amount := 100; totalFilledAmount := 100; fillAmount := 40;
  destinationChainId := 10; destinationToken := 7; blockNumber := 70;
  isSlowRelay := false
|}.

(** The fill of the remaining 40, executed as the slow relay. *)
Definition slowCompletingFill : FillWithBlock := {|
  amount := 100; totalFilledAmount := 100; fillAmount := 40;
  destinationChainId := 10; destinationToken := 7; blockNumber := 70;
  isSlowRelay := true
|}.

(** The fill history knows the partial fill of the past bundle. *)
Definition knownHistory (fill : FillWithBlock) (fills : list FillWithBlock)
    (hubPoolClient : HubPoolClient) (chains : list N) : FillData := {|
  lastFillBeforeSlowFillIncludedInRoot := Some partialFill;
  rootBundleEndBlockContainingFirstFill := Some 50%N
|}.

(** The fill history has lost it. *)
Definition brokenHistory (fill : FillWithBlock) (fills : list FillWithBlock)
    (hubPoolClient : HubPoolClient) (chains : list N) : FillData := {|
  lastFillBeforeSlowFillIncludedInRoot := None;
  rootBundleEndBlockContainingFirstFill := Some 50%N
|}.

(** Every fill of the deposit is in the bundle being built. *)
Definition freshHistory (fill : FillWithBlock) (fills : list FillWithBlock)
    (hubPoolClient : HubPoolClient) (chains : list N) : FillData := {|
  lastFillBeforeSlowFillIncludedInRoot := None;
  rootBundleEndBlockContainingFirstFill := None
|}.

(** A second deposit, of 30 of the token 8, completed at block 80 after a
    partial fill in the past bundle. *)
Definition otherCompletingFill : FillWithBlock := {|
  amount := 30; totalFilledAmount := 30; fillAmount := 10;
  destinationChainId := 10; destinationToken := 8; blockNumber := 80;
  isSlowRelay := false
|}.

(** The fill history knows the partial fill of the deposit of the token 7,
    and has lost that of every other deposit. *)
Definition patchyHistory (fill : FillWithBlock) (fills : list FillWithBlock)
    (hubPoolClient : HubPoolClient) (chains : list N) : FillData :=
  if decide (destinationToken fill = 7%N)
  then knownHistory fill fills hubPoolClient chains
  else brokenHistory fill fills hubPoolClient chains.

(** A repayment whose refund amount is there, and is zero. *)
Definition zeroRefund : gmap N (gmap N RefundEntry) :=
  {[ 1%N := {[ 7%N := {| totalRefundAmount := Some 0; realizedLpFees := 3 |} ]} ]}.

(** [assign] overwriting what it finds. *)
Definition overwrite (existing value : Z) : Z := value.

(** Five tokens on chain 10, two on chain 3. *)
Definition sampleLedger : gmap N (gmap N Z) :=
  <[10%N := list_to_map [(5%N, 100); (1%N, -7); (9%N, 3); (4%N, 0); (2%N, 50)]]>
    (<[3%N := list_to_map [(8%N, 20); (6%N, -30)]]> ∅).

(** Fees on chain 10, and on chain 7, which has no running balance. *)
Definition sampleFees : gmap N (gmap N Z) :=
  <[10%N := {[ 5%N := 1 ]}]> (<[7%N := {[ 5%N := 2 ]}]> ∅).

Definition sampleConfig : AcrossConfigStoreClient := {|
  getMaxRefundCountForRelayerRefundLeafForBlock := λ block, 3%nat;
  getTokenTransferThresholdForBlock := λ token block, 10
|}.

Definition sampleThresholds : gmap N Z := {[ 5%N := 1000 ]}.

Definition sampleLeaves : list PoolRebalanceLeaf := [
  {| chainId := 3; bundleLpFees := [Some 0; Some 0]; netSendAmounts := [-30; 20];
     runningBalances := [0; 0]; groupIndex := 0; leafId := 0; l1Tokens := [6%N; 8%N] |};
  {| chainId := 10; bundleLpFees := [None; None]; netSendAmounts := [0; 50];
     runningBalances := [-7; 0]; groupIndex := 0; leafId := 1; l1Tokens := [1%N; 2%N] |};
  {| chainId := 10; bundleLpFees := [None; Some 1]; netSendAmounts := [0; 0];
     runningBalances := [0; 100]; groupIndex := 1; leafId := 2; l1Tokens := [4%N; 5%N] |};
  {| chainId := 10; bundleLpFees := [None]; netSendAmounts := [0];
     runningBalances := [3]; groupIndex := 2; leafId := 3; l1Tokens := [9%N] |}
].

(** * Further operations of the module *)

(** ** Slow fills and carried balances *)

(** The fields of [DepositWithBlock] this module reads; [destinationChainId]
    and [blockNumber] carry a prefix here, the plain names being those of the
    fields of a fill. *)
Record DepositWithBlock : Type := {
  originChainId : N;
  originToken : N;
  depositDestinationChainId : N;
  depositBlockNumber : N
}.

Record UnfilledDeposit : Type := {
  deposit : DepositWithBlock;
  unfilledAmount : Z
}.

Definition updateRunningBalanceForDeposit (ledger : RunningBalances)
    (hubPoolClient : HubPoolClient) (dep : DepositWithBlock) (updateAmount : Z)
    : RunningBalances :=
  let l1TokenCounterpart :=
    getL1TokenCounterpartAtBlock hubPoolClient
      (originChainId dep) (originToken dep) (depositBlockNumber dep) in
  updateRunningBalance ledger (originChainId dep) l1TokenCounterpart updateAmount.

(** The ledger is mutated in place: the ledger after the loop is the result. *)
Definition addSlowFillsToRunningBalances (latestMainnetBlock : N) (ledger : RunningBalances)
    (hubPoolClient : HubPoolClient) (unfilledDeposits : list UnfilledDeposit)
    : RunningBalances :=
  foldl (λ ledger unfilledDeposit,
           let l1TokenCounterpart :=
             getL1TokenCounterpartAtBlock hubPoolClient
               (originChainId (deposit unfilledDeposit))
               (originToken (deposit unfilledDeposit)) latestMainnetBlock in
           updateRunningBalance ledger
             (depositDestinationChainId (deposit unfilledDeposit))
             l1TokenCounterpart (unfilledAmount unfilledDeposit))
        ledger unfilledDeposits.

Section LastRunningBalance.

Context `{ObjectKeys}.

(** [hubPoolClient.getRunningBalanceBeforeBlockForChain], a further method of
    the hub pool client. *)
Variable getRunningBalanceBeforeBlockForChain : N → N → N → Z.

Variable latestMainnetBlock : N.

(** The body of the inner [forEach]. *)
Definition addLastForToken (repaymentChainId : N) (ledger : RunningBalances)
    (l1TokenAddress : N) : RunningBalances :=
  let lastRunningBalance :=
    getRunningBalanceBeforeBlockForChain latestMainnetBlock repaymentChainId
      l1TokenAddress in
  if lastRunningBalance =? 0 then ledger
  else updateRunningBalance ledger repaymentChainId l1TokenAddress lastRunningBalance.

(** The body of the outer [forEach]: the keys of [runningBalances[chain]] are
    read off the ledger as it stands when the chain is visited. *)
Definition addLastForChain (ledger : RunningBalances) (repaymentChainId : N)
    : RunningBalances * Outcome unit :=
  match ledger !! repaymentChainId with
  | None => (ledger, Throws TypeError)
  | Some forChain =>
      (foldl (addLastForToken repaymentChainId) ledger (objectKeys forChain), Returns ())
  end.

Fixpoint forEachRepaymentChain (chains : list N) (ledger : RunningBalances)
    : RunningBalances * Outcome unit :=
  match chains with
  | [] => (ledger, Returns ())
  | chain :: rest =>
      match addLastForChain ledger chain with
      | (ledger', Returns _) => forEachRepaymentChain rest ledger'
      | stopped => stopped
      end
  end.

(** The keys of [runningBalances] are listed once, before the loop. *)
Definition addLastRunningBalance (ledger : RunningBalances)
    : RunningBalances * Outcome unit :=
  forEachRepaymentChain (objectKeys ledger) ledger.

End LastRunningBalance.

(** ** Notions for the further properties *)

Definition sumZ (amounts : list Z) : Z := foldr Z.add 0 amounts.

(** A series of calls of [updateRunningBalance], each with its chain, token
    and amount. *)
Definition applyUpdates (updates : list (N * N * Z)) (ledger : RunningBalances)
    : RunningBalances :=
  foldl (λ ledger update, updateRunningBalance ledger update.1.1 update.1.2 update.2)
        ledger updates.

(** The amounts of the updates booked on a bucket. *)
Definition bookedOn (chain token : N) (updates : list (N * N * Z)) : list Z :=
  snd <$> filter (λ update, update.1 = (chain, token)) updates.

(** The bucket a slow fill is booked on: the destination chain of the
    deposit, and the counterpart of its origin token. *)
Definition slowFillBucket (latestMainnetBlock : N) (hubPoolClient : HubPoolClient)
    (unfilledDeposit : UnfilledDeposit) : N * N :=
  (depositDestinationChainId (deposit unfilledDeposit),
   getL1TokenCounterpartAtBlock hubPoolClient
     (originChainId (deposit unfilledDeposit))
     (originToken (deposit unfilledDeposit)) latestMainnetBlock).

(** The bucket a fill is booked on. *)
Definition fillBucket (hubPoolClient : HubPoolClient) (fill : FillWithBlock) : N * N :=
  (destinationChainId fill, settlementToken hubPoolClient fill).

(** What the correction takes back for a fill: something only for a fill
    that completes its deposit in another window than the first fill. *)
Definition excessOf
    (getFillData : FillWithBlock → list FillWithBlock → HubPoolClient → list N → FillData)
    (hubPoolClient : HubPoolClient) (allValidFills : list FillWithBlock)
    (chainIds : list N) (fill : FillWithBlock) : Z :=
  if totalFilledAmount fill =? amount fill then
    if decide (firstFillWindow getFillData hubPoolClient allValidFills chainIds fill
               = fullFillWindow hubPoolClient chainIds fill) then 0
    else
      match reservationFill getFillData hubPoolClient allValidFills chainIds fill with
      | Some lastFill =>
          if isSlowRelay fill
          then amount lastFill - totalFilledAmount lastFill - fillAmount fill
          else amount lastFill - totalFilledAmount lastFill
      | None => 0
      end
  else 0.

(** The (chain, token) pairs the leaves report, leaf after leaf. *)
Definition reportedBuckets (leaves : list PoolRebalanceLeaf) : list (N * N) :=
  leaves ≫= λ leaf, (λ l1Token, (chainId leaf, l1Token)) <$> l1Tokens leaf.

(** The threshold in force for a token: the override when the table has one,
    the config store's otherwise. *)
Definition thresholdInForce (latestMainnetBlock : N)
    (configStoreClient : AcrossConfigStoreClient) (thresholds : gmap N Z) (l1Token : N) : Z :=
  match thresholds !! l1Token with
  | Some threshold => threshold
  | None => getTokenTransferThresholdForBlock configStoreClient l1Token latestMainnetBlock
  end.

(** What position [i] of a leaf, holding the token [l1Token], reports: the
    balance of the bucket split by the threshold policy, and the realized fee
    of the bucket (zero when the chain has no fees at all, [undefined] when
    the chain has fees but none for the token). *)
Definition positionReports (latestMainnetBlock : N) (ledger lpFees : RunningBalances)
    (configStoreClient : AcrossConfigStoreClient) (thresholds : gmap N Z)
    (leaf : PoolRebalanceLeaf) (i : nat) (l1Token : N) : Prop :=
  ∃ balance,
    bucket ledger (chainId leaf) l1Token = Some balance
    ∧ netSendAmounts leaf !! i
      = Some (getNetSendAmountForL1Token
                (thresholdInForce latestMainnetBlock configStoreClient thresholds l1Token)
                balance)
    ∧ runningBalances leaf !! i
      = Some (getRunningBalanceForL1Token
                (thresholdInForce latestMainnetBlock configStoreClient thresholds l1Token)
                balance)
    ∧ bundleLpFees leaf !! i
      = Some (match lpFees !! chainId leaf with
              | Some feesForChain => feesForChain !! l1Token
              | None => Some 0
              end).

(** * The multicall client *)

Module MultiCallerClient.

Section Client.

(** A contract, the arguments of a call and the answer of [runTransaction]
    are left abstract; of a contract the client reads the address and has
    the interface encode a call, which is taken to succeed. *)
Context {Contract Args Response : Type}.
Variable address : Contract → string.
Variable encodeFunctionData : Contract → string → Args → string.
Variable runTransaction : Contract → string → list (list string) → Response.

Record AugmentedTransaction : Type := {
  contract : Contract;
  chainId : N;
  method : string;
  args : Args;
  message : string;
  mrkdwn : string
}.

(** [[...new Set(callData)]]: the constructor adds the values one by one, a
    value already in the set is not added again, and the set is read in the
    order of insertion. *)
Definition setAdd (set : list string) (value : string) : list string :=
  if decide (value ∈ set) then set else set ++ [value].

Definition spreadSet (values : list string) : list string :=
  foldl setAdd [] values.

(** The call data of the bundle, before and after duplicates are removed. *)
Definition encodedCalls (transactions : list AugmentedTransaction) : list string :=
  (λ tx, encodeFunctionData (contract tx) (method tx) (args tx)) <$> transactions.

Definition callDataOf (transactions : list AugmentedTransaction) : list string :=
  spreadSet (encodedCalls transactions).

(** Returns [null] ([None]) or what [runTransaction] returns; reading
    [transactions[0].contract] of an empty array throws.  The calls of the
    logger are left out. *)
Definition buildMultiCallBundle (transactions : list AugmentedTransaction)
    : Outcome (option Response) :=
  match transactions with
  | [] => Throws TypeError
  | first :: _ =>
      let target := contract first in
      if bool_decide (Forall (λ tx, address (contract tx) ≠ address target) transactions)
      then Returns None
      else Returns (Some (runTransaction target "multicall" [callDataOf transactions]))
  end.

End Client.

End MultiCallerClient.

(** * The Optimism finalizer *)

Module Optimism.

(** Of a [TokensBridged] event the finalizer's queries read the transaction
    hash; the token and the amount are read when a message is finalized. *)
Record TokensBridged : Type := {
  transactionHash : string;
  l2TokenAddress : string;
  amountToReturn : Z
}.

Section Finalizer.

(** A message of the cross-chain messenger is left abstract.  A promise that
    is rejected is [None]: what it is rejected with is not modelled.  The
    messenger is taken to answer a query the same way each time. *)
Context {Message : Type}.
Variable getMessagesByTransaction : string → option (list Message).
Variable getMessageStatus : Message → option N.

(** The enumeration [MessageStatus] of the messenger: the name of a status
    number, [undefined] for a number with no name, and the number of
    [READY_FOR_RELAY]. *)
Variable MessageStatus : N → option string.
Variable READY_FOR_RELAY : N.

Record CrossChainMessageWithEvent : Type := {
  event : TokensBridged;
  message : Message
}.

(** [CrossChainMessageWithStatus] extends [CrossChainMessageWithEvent]. *)
Record CrossChainMessageWithStatus : Type := {
  withEvent : CrossChainMessageWithEvent;
  status : option string
}.

Definition getCrossChainMessages (tokensBridged : list TokensBridged)
    : option (list CrossChainMessageWithEvent) :=
  messagesInTransactions ←
    mapM (λ bridged,
            messages ← getMessagesByTransaction (transactionHash bridged);
            Some (messages, bridged))
         tokensBridged;
  Some (foldl (λ flattenedMessages messagesInTransaction,
                 flattenedMessages
                 ++ ((λ m, {| event := messagesInTransaction.2; message := m |})
                       <$> messagesInTransaction.1))
              [] messagesInTransactions).

(** The status at position [i] goes with [crossChainMessages[i]]. *)
Definition getMessageStatuses (crossChainMessages : list CrossChainMessageWithEvent)
    : option (list CrossChainMessageWithStatus) :=
  statuses ← mapM (λ m, getMessageStatus (message m)) crossChainMessages;
  Some (zip_with (λ statusNumber m,
                    {| withEvent := m; status := MessageStatus statusNumber |})
                 statuses crossChainMessages).

(** The call of the logger is left out. *)
Definition getOptimismFinalizableMessages (tokensBridged : list TokensBridged)
    : option (list CrossChainMessageWithStatus) :=
  crossChainMessages ← getCrossChainMessages tokensBridged;
  messageStatuses ← getMessageStatuses crossChainMessages;
  Some (filter (λ m, status m = MessageStatus READY_FOR_RELAY) messageStatuses).

End Finalizer.

End Optimism.

(** * Sample inputs of the clients *)

(** Two transactions to the contract at 0x01 that encode to the same call,
    and one to the contract at 0x02; a contract is its address, the encoding
    of a call is the name of the method. *)
Definition sampleTransaction (target method : string)
    : MultiCallerClient.AugmentedTransaction (Contract:=string) (Args:=unit) := {|
  MultiCallerClient.contract := target;
  MultiCallerClient.chainId := 1;
  MultiCallerClient.method := method;
  MultiCallerClient.args := ();
  MultiCallerClient.message := "sample";
  MultiCallerClient.mrkdwn := "sample"
|}.

Definition sampleQueue
    : list (MultiCallerClient.AugmentedTransaction (Contract:=string) (Args:=unit)) :=
  [sampleTransaction "0x01" "relay"; sampleTransaction "0x02" "dispute";
   sampleTransaction "0x01" "relay"].

(** The transaction 0xa holds the messages 1 and 2, the transaction 0xb the
    message 3, and no other transaction can be fetched; the status of the
    message 3 cannot be fetched, the message 1 is ready for relay and the
    message 2 is relayed. *)
Definition sampleBridged (hash : string) : Optimism.TokensBridged := {|
  Optimism.transactionHash := hash;
  Optimism.l2TokenAddress := "0x4200000000000000000000000000000000000006";
  Optimism.amountToReturn := 5
|}.

Definition sampleMessagesByTransaction (hash : string) : option (list N) :=
  if decide (hash = "0xa") then Some [1%N; 2%N]
  else if decide (hash = "0xb") then Some [3%N]
  else None.

Definition sampleMessageStatus (m : N) : option N :=
  match m with
  | 1%N => Some 4%N
  | 2%N => Some 5%N
  | _ => None
  end.

Definition sampleStatusName (statusNumber : N) : option string :=
  match statusNumber with
  | 0%N => Some "UNCONFIRMED_L1_TO_L2_MESSAGE"
  | 1%N => Some "FAILED_L1_TO_L2_MESSAGE"
  | 2%N => Some "STATE_ROOT_NOT_PUBLISHED"
  | 3%N => Some "IN_CHALLENGE_PERIOD"
  | 4%N => Some "READY_FOR_RELAY"
  | 5%N => Some "RELAYED"
  | _ => None
  end.

Definition sampleReadyMessage : Optimism.CrossChainMessageWithStatus := {|
  Optimism.withEvent := {| Optimism.event := sampleBridged "0xa"; Optimism.message := 1%N |};
  Optimism.status := Some "READY_FOR_RELAY"
|}.

(** * Properties *)

(** ** Threshold policy *)

(** C2: for a threshold [T >= 0] and a balance [B], the policy yields
    [(netSendAmount, carried) = (B, 0)] when [|B| >= T] and [(0, B)] when
    [|B| < T]; the two outputs are never both nonzero. *)
Theorem threshold_policy_correct (T B : Z) :
  0 <= T →
  (T <= Z.abs B →
     getNetSendAmountForL1Token T B = B ∧ getRunningBalanceForL1Token T B = 0) ∧
  (Z.abs B < T →
     getNetSendAmountForL1Token T B = 0 ∧ getRunningBalanceForL1Token T B = B) ∧
  (getNetSendAmountForL1Token T B = 0 ∨ getRunningBalanceForL1Token T B = 0).
Proof.
  intros _. unfold getNetSendAmountForL1Token, getRunningBalanceForL1Token.
  destruct (Z.geb_spec (Z.abs B) T) as [Hge|Hlt];
    destruct (Z.ltb_spec (Z.abs B) T) as [Hlt'|Hge']; try lia;
    repeat split; intros; try lia; auto.
Qed.

Lemma threshold_policy_witness :
  0 <= 10 ∧
  (getNetSendAmountForL1Token 10 (-25) = 0 ∨ getRunningBalanceForL1Token 10 (-25) = 0).
Proof.
  split; [lia | apply (threshold_policy_correct 10 (-25)); lia].
Defined.

(** ** Running balance updates *)

Lemma bucket_updateRunningBalance (ledger : RunningBalances) (c t c' t' : N) (a : Z) :
  bucket (updateRunningBalance ledger c t a) c' t' =
    if decide (c' = c ∧ t' = t) then Some (balanceOf ledger c t + a)
    else bucket ledger c' t'.
Proof.
  unfold updateRunningBalance, balanceOf, bucket.
  destruct (decide (c' = c)) as [->|Hc].
  - rewrite lookup_insert_eq. simpl.
    destruct (decide (t' = t)) as [->|Ht].
    + rewrite lookup_insert_eq, decide_True by done.
      destruct (ledger !! c) as [forChain|]; simpl.
      * destruct (forChain !! t); simpl; f_equal; lia.
      * rewrite lookup_empty. simpl. f_equal; lia.
    + rewrite lookup_insert_ne, decide_False by intuition congruence.
      destruct (ledger !! c); simpl; [done | by rewrite lookup_empty].
  - rewrite lookup_insert_ne, decide_False by intuition congruence. done.
Qed.

Lemma balanceOf_updateRunningBalance (ledger : RunningBalances) (c t c' t' : N) (a : Z) :
  balanceOf (updateRunningBalance ledger c t a) c' t' =
    if decide (c' = c ∧ t' = t) then balanceOf ledger c t + a
    else balanceOf ledger c' t'.
Proof.
  unfold balanceOf at 1. rewrite bucket_updateRunningBalance.
  by destruct (decide (c' = c ∧ t' = t)).
Qed.

(** ** Excess from previous slow fills *)

Lemma sumZ_cons (x : Z) (l : list Z) : sumZ (x :: l) = x + sumZ l.
Proof. reflexivity. Qed.

Section ExcessCorrectionFacts.

Variable getFillData : FillWithBlock → list FillWithBlock → HubPoolClient → list N → FillData.
Variable hubPoolClient : HubPoolClient.
Variable allValidFills : list FillWithBlock.
Variable chainIds : list N.

Let turn := subtractExcessForFill getFillData hubPoolClient allValidFills chainIds.
Let loop := forEachFill getFillData hubPoolClient allValidFills chainIds.
Let engine :=
  subtractExcessFromPreviousSlowFillsFromRunningBalances getFillData hubPoolClient
    allValidFills chainIds.
Let excessFor := excessOf getFillData hubPoolClient allValidFills chainIds.
Let firstWindow := firstFillWindow getFillData hubPoolClient allValidFills chainIds.
Let fullWindow := fullFillWindow hubPoolClient chainIds.
Let reservation := reservationFill getFillData hubPoolClient allValidFills chainIds.
Let tokenOf := settlementToken hubPoolClient.

(** One turn of the loop, for a fill that completes its deposit in another
    settlement window than its first fill and whose reservation fill is
    known: the turn returns, and books the excess, negated, on the bucket of
    the fill when it is not zero. *)
Lemma subtractExcessForFill_completing
    (ledger : RunningBalances) (fill lastFill : FillWithBlock) :
  totalFilledAmount fill = amount fill →
  firstWindow fill ≠ fullWindow fill →
  reservation fill = Some lastFill →
  let amountReserved := amount lastFill - totalFilledAmount lastFill in
  let excess :=
    if isSlowRelay fill then amountReserved - fillAmount fill else amountReserved in
  ∃ ledger',
    subtractExcessForFill getFillData hubPoolClient allValidFills chainIds ledger fill
      = (ledger', Returns ()) ∧
    (excess ≠ 0 →
       ledger' = updateRunningBalance ledger (destinationChainId fill)
                   (tokenOf fill) (- excess)) ∧
    (excess = 0 → ledger' = ledger) ∧
    (∀ c t, balanceOf ledger' c t =
              if decide (c = destinationChainId fill ∧ t = tokenOf fill)
              then balanceOf ledger c t + - excess
              else balanceOf ledger c t).
Proof.
  intros Hfull Hwin Hlast amountReserved excess.
  unfold firstWindow, fullWindow, reservation, tokenOf in *.
  unfold firstFillWindow, fullFillWindow, reservationFill, settlementToken in *.
  unfold subtractExcessForFill.
  rewrite Hfull, Z.eqb_refl, decide_False, Hlast by done.
  fold amountReserved. fold excess.
  destruct (Z.eqb_spec excess 0) as [H0|Hne].
  - exists ledger. repeat split; [done..|].
    intros c t. rewrite H0. case_decide as Hct; [destruct Hct as [-> ->]|]; lia.
  - eexists. split; [reflexivity|]. unfold updateRunningBalanceForFill.
    replace (excess * -1) with (- excess) by lia.
    repeat split; [done..|].
    intros c t. rewrite balanceOf_updateRunningBalance.
    case_decide as Hct; [by destruct Hct as [-> ->] | done].
Qed.

Lemma turn_balance (ledger ledger' : RunningBalances) (fill : FillWithBlock) :
  turn ledger fill = (ledger', Returns ()) →
  ∀ c t, balanceOf ledger' c t
         = balanceOf ledger c t
           - (if decide (fillBucket hubPoolClient fill = (c, t)) then excessFor fill else 0).
Proof.
  unfold turn, excessFor, subtractExcessForFill, excessOf, fillBucket.
  unfold firstFillWindow, fullFillWindow, reservationFill, settlementToken.
  destruct (totalFilledAmount fill =? amount fill).
  - case_decide.
    + intros [= <-] c t. case_decide; lia.
    + destruct (lastFillBeforeSlowFillIncludedInRoot _) as [lastFill|]; [|done].
      set (taken := if isSlowRelay fill
                    then amount lastFill - totalFilledAmount lastFill - fillAmount fill
                    else amount lastFill - totalFilledAmount lastFill).
      destruct (Z.eqb_spec taken 0) as [Hzero|Hnonzero].
      * intros [= <-] c t. rewrite Hzero. case_decide; lia.
      * intros [= <-] c t. unfold updateRunningBalanceForFill.
        rewrite balanceOf_updateRunningBalance.
        destruct (decide (c = destinationChainId fill
                          ∧ t = getL1TokenCounterpartAtBlock hubPoolClient
                                  (destinationChainId fill) (destinationToken fill)
                                  (blockNumber fill))) as [[-> ->]|Hne].
        -- rewrite decide_True by done. lia.
        -- rewrite decide_False; [lia|]. intros Heq. apply Hne.
           by inversion Heq.
  - intros [= <-] c t. case_decide; lia.
Qed.

Lemma loop_cons (fill : FillWithBlock) (fills : list FillWithBlock)
    (ledger : RunningBalances) :
  loop (fill :: fills) ledger
  = match turn ledger fill with
    | (ledger', Returns _) => loop fills ledger'
    | stopped => stopped
    end.
Proof. reflexivity. Qed.

Lemma loop_balance (fills : list FillWithBlock) (ledger ledger' : RunningBalances) :
  loop fills ledger = (ledger', Returns ()) →
  ∀ c t, balanceOf ledger' c t
         = balanceOf ledger c t
           - sumZ (excessFor <$> filter (λ fill, fillBucket hubPoolClient fill = (c, t)) fills).
Proof.
  revert ledger. induction fills as [|fill fills IH]; intros ledger.
  - intros [= <-] c t. simpl. lia.
  - rewrite loop_cons.
    destruct (turn ledger fill) as [ledger1 [[]| |]] eqn:Hturn; [|done..].
    intros Hrest c t. rewrite (IH _ Hrest), (turn_balance _ _ _ Hturn), filter_cons.
    case_decide; [rewrite fmap_cons, sumZ_cons|]; lia.
Qed.

Lemma loop_app (before after : list FillWithBlock) (ledger : RunningBalances) :
  loop (before ++ after) ledger
  = match loop before ledger with
    | (ledger', Returns _) => loop after ledger'
    | stopped => stopped
    end.
Proof.
  revert ledger. induction before as [|fill before IH]; intros ledger; [done|].
  rewrite <-app_comm_cons, !loop_cons.
  destruct (turn ledger fill) as [ledger1 [[]| |]]; [apply IH|done..].
Qed.

(** C1: for a fill among the valid fills that completes its deposit, whose
    first fill lies in another settlement window than the completing fill,
    and for which the reservation fill is known, the amount reserved is the
    reservation fill's [amount - totalFilledAmount]; the excess is that
    amount less [fill.fillAmount] for a slow relay and that amount otherwise.
    The turn of the loop for that fill returns and adds the excess, negated,
    to the bucket of the fill's destination chain and settlement token when
    it is not zero, and changes nothing when it is zero.  The correction as a
    whole, once the fills before that one have gone through, goes on over the
    fills after it from the ledger with the excess booked; when it returns,
    the bucket of the fill is down by the excess, besides what the other
    fills booked on that bucket take back, and a bucket on which no fill is
    booked is as it was. *)
Theorem excess_subtracted_for_completing_fill
    (ledger : RunningBalances) (before after : list FillWithBlock)
    (fill lastFill : FillWithBlock) :
  allValidFills = before ++ fill :: after →
  totalFilledAmount fill = amount fill →
  firstWindow fill ≠ fullWindow fill →
  reservation fill = Some lastFill →
  let amountReserved := amount lastFill - totalFilledAmount lastFill in
  let excess :=
    if isSlowRelay fill then amountReserved - fillAmount fill else amountReserved in
  let booked (ledger0 : RunningBalances) : RunningBalances :=
    if decide (excess = 0) then ledger0
    else updateRunningBalance ledger0 (destinationChainId fill) (tokenOf fill) (- excess) in
  (∀ ledger0, turn ledger0 fill = (booked ledger0, Returns ()))
  ∧ (∀ ledger1,
       loop before ledger = (ledger1, Returns ()) →
       engine ledger = loop after (booked ledger1))
  ∧ (∀ ledger',
       engine ledger = (ledger', Returns ()) →
       balanceOf ledger' (destinationChainId fill) (tokenOf fill)
       = balanceOf ledger (destinationChainId fill) (tokenOf fill) - excess
         - sumZ (excessFor
                   <$> filter (λ other, fillBucket hubPoolClient other
                                        = (destinationChainId fill, tokenOf fill))
                         (before ++ after))
       ∧ ∀ c t,
           (∀ other, other ∈ allValidFills → fillBucket hubPoolClient other ≠ (c, t)) →
           balanceOf ledger' c t = balanceOf ledger c t).
Proof.
  intros Hfills Hfull Hwin Hlast amountReserved excess booked.
  assert (∀ ledger0, turn ledger0 fill = (booked ledger0, Returns ())) as Hturn.
  { intros ledger0.
    destruct (subtractExcessForFill_completing ledger0 fill lastFill Hfull Hwin Hlast)
      as (ledger' & Hstep & Hnonzero & Hzero & _).
    unfold turn. rewrite Hstep. f_equal. unfold booked.
    fold amountReserved in Hnonzero, Hzero. fold excess in Hnonzero, Hzero.
    case_decide; auto. }
  assert (excessFor fill = excess) as Hexcess.
  { unfold excessFor, excessOf. unfold firstWindow, fullWindow, reservation in *.
    by rewrite Hfull, Z.eqb_refl, decide_False, Hlast. }
  split; [exact Hturn|]. split.
  - intros ledger1 Hbefore. unfold engine.
    unfold subtractExcessFromPreviousSlowFillsFromRunningBalances.
    change (forEachFill getFillData hubPoolClient allValidFills chainIds)
      with loop.
    rewrite Hfills at 1.
    by rewrite loop_app, Hbefore, loop_cons, Hturn.
  - intros ledger' Hrun. unfold engine in Hrun.
    unfold subtractExcessFromPreviousSlowFillsFromRunningBalances in Hrun.
    pose proof (loop_balance _ _ _ Hrun) as Hbalance. split.
    + rewrite Hbalance.
      change (forEachFill getFillData hubPoolClient allValidFills chainIds)
        with loop in Hrun.
      rewrite Hfills at 1.
      rewrite !filter_app, filter_cons, decide_True by done.
      rewrite !fmap_app, fmap_cons, Hexcess.
      assert (∀ l l', sumZ (l ++ l') = sumZ l + sumZ l') as Happ.
      { intros l l'. induction l as [|x l IH]; [done|].
        rewrite <- app_comm_cons, !sumZ_cons. lia. }
      rewrite !Happ, sumZ_cons. lia.
    + intros c t Hnone. rewrite Hbalance.
      assert (filter (λ other, fillBucket hubPoolClient other = (c, t)) allValidFills
              = []) as ->; [|simpl; lia].
      induction allValidFills as [|other fills IH] in Hnone |- *; [done|].
      rewrite filter_cons, decide_False by (apply Hnone; left).
      apply IH. intros other' Hin. apply Hnone. by right.
Qed.

(** C4: a completing fill whose first fill falls in the same settlement
    window as the fill itself (also when neither lookup finds a window)
    leaves the running balances as they are. *)
Theorem no_correction_within_same_window (ledger : RunningBalances) (fill : FillWithBlock) :
  totalFilledAmount fill = amount fill →
  firstWindow fill = fullWindow fill →
  subtractExcessForFill getFillData hubPoolClient allValidFills chainIds ledger fill
    = (ledger, Returns ()).
Proof.
  intros Hfull Hwin. unfold firstWindow, fullWindow, firstFillWindow, fullFillWindow in Hwin.
  unfold subtractExcessForFill.
  by rewrite Hfull, Z.eqb_refl, decide_True.
Qed.

(** A turn of the loop either returns or throws the one error of the module. *)
Lemma subtractExcessForFill_outcome (ledger : RunningBalances) (fill : FillWithBlock) :
  let r := subtractExcessForFill getFillData hubPoolClient allValidFills chainIds ledger fill in
  r.2 = Returns () ∨ r = (ledger, Throws missingLastFill).
Proof.
  unfold subtractExcessForFill. simpl.
  repeat (case_match; simpl; auto).
Qed.

Lemma subtractExcessForFill_throws (ledger : RunningBalances) (fill : FillWithBlock) :
  totalFilledAmount fill = amount fill →
  firstWindow fill ≠ fullWindow fill →
  reservation fill = None →
  subtractExcessForFill getFillData hubPoolClient allValidFills chainIds ledger fill
    = (ledger, Throws missingLastFill).
Proof.
  intros Hfull Hwin Hlast. unfold firstWindow, fullWindow, reservation in *.
  unfold firstFillWindow, fullFillWindow, reservationFill in *.
  unfold subtractExcessForFill.
  by rewrite Hfull, Z.eqb_refl, decide_False, Hlast.
Qed.

Lemma forEachFill_throws (fills : list FillWithBlock) (fill : FillWithBlock) :
  fill ∈ fills →
  totalFilledAmount fill = amount fill →
  firstWindow fill ≠ fullWindow fill →
  reservation fill = None →
  ∀ ledger, ∃ ledger',
    forEachFill getFillData hubPoolClient allValidFills chainIds fills ledger
      = (ledger', Throws missingLastFill).
Proof.
  intros Hin Hfull Hwin Hlast.
  induction fills as [|f fills IH]; [by apply elem_of_nil in Hin|].
  intros ledger. simpl.
  destruct (subtractExcessForFill_outcome ledger f) as [Hret|Hthrow].
  - destruct (subtractExcessForFill _ _ _ _ ledger f) as [ledger1 o] eqn:Hstep.
    simpl in Hret. subst o.
    apply elem_of_cons in Hin as [->|Hin].
    + rewrite subtractExcessForFill_throws in Hstep by done. by inversion Hstep.
    + by apply IH.
  - rewrite Hthrow. by exists ledger.
Qed.

(** C3: when some completing fill has its first fill in another settlement
    window and no reservation fill can be found for it, the whole correction
    fails with an error; the turn for that fill throws, it neither skips the
    fill nor returns. *)
Theorem missing_reservation_fill_is_fatal (ledger : RunningBalances) (fill : FillWithBlock) :
  fill ∈ allValidFills →
  totalFilledAmount fill = amount fill →
  firstWindow fill ≠ fullWindow fill →
  reservation fill = None →
  (∀ ledger0,
     subtractExcessForFill getFillData hubPoolClient allValidFills chainIds ledger0 fill
       = (ledger0, Throws missingLastFill)) ∧
  ∃ ledger',
    subtractExcessFromPreviousSlowFillsFromRunningBalances
      getFillData hubPoolClient allValidFills chainIds ledger
      = (ledger', Throws missingLastFill).
Proof.
  intros Hin Hfull Hwin Hlast. split.
  - intros ledger0. by apply subtractExcessForFill_throws.
  - by apply forEachFill_throws with fill.
Qed.

End ExcessCorrectionFacts.

(** ** Enumeration of keys *)

Section ObjectKeysFacts.

Context `{ObjectKeys} {V : Type}.
Implicit Types m : gmap N V.

Lemma elem_of_objectEntries m k v : (k, v) ∈ objectEntries m ↔ m !! k = Some v.
Proof. rewrite objectEntries_perm. apply elem_of_map_to_list. Qed.

Lemma NoDup_objectEntries m : NoDup (objectEntries m).
Proof. rewrite objectEntries_perm. apply NoDup_map_to_list. Qed.

Lemma objectKeys_perm m : objectKeys m ≡ₚ (map_to_list m).*1.
Proof. unfold objectKeys. by rewrite objectEntries_perm. Qed.

Lemma elem_of_objectKeys m k : k ∈ objectKeys m ↔ is_Some (m !! k).
Proof.
  rewrite objectKeys_perm, list_elem_of_fmap. split.
  - intros [[k' v] [-> Hin]]. apply elem_of_map_to_list in Hin. by exists v.
  - intros [v Hv]. exists (k, v). split; [done|]. by apply elem_of_map_to_list.
Qed.

Lemma NoDup_objectKeys m : NoDup (objectKeys m).
Proof. rewrite objectKeys_perm. apply NoDup_fst_map_to_list. Qed.

End ObjectKeysFacts.

(** ** Running balances from relayer repayments *)

Section RelayerRepaymentFacts.

Context `{ObjectKeys}.
Variable assignExisting : Z → Z → Z.
Variable latestMainnetBlock : N.
Variable hubPoolClient : HubPoolClient.

Let l1TokenOf (c t : N) : N :=
  getL1TokenCounterpartAtBlock hubPoolClient c t latestMainnetBlock.
Let refundWriteOf := refundWrite latestMainnetBlock hubPoolClient.
Let feeWriteOf := feeWrite latestMainnetBlock hubPoolClient.
Let writesTo := applyWrites assignExisting.

Lemma bucket_assign (obj : RunningBalances) (c t c' t' : N) (v : Z) :
  bucket (assign assignExisting obj c t v) c' t' =
    if decide (c' = c ∧ t' = t)
    then Some (match bucket obj c t with
               | Some existing => assignExisting existing v
               | None => v
               end)
    else bucket obj c' t'.
Proof.
  unfold assign, bucket.
  destruct (decide (c' = c)) as [->|Hc].
  - rewrite lookup_insert_eq. simpl.
    destruct (decide (t' = t)) as [->|Ht].
    + rewrite lookup_insert_eq, decide_True by done.
      destruct (obj !! c) as [forChain|]; simpl; [done|].
      by rewrite lookup_empty.
    + rewrite lookup_insert_ne, decide_False by intuition congruence.
      destruct (obj !! c); simpl; [done | by rewrite lookup_empty].
  - rewrite lookup_insert_ne, decide_False by intuition congruence. done.
Qed.

Lemma elem_of_repaymentPairs (fillsToRefund : gmap N (gmap N RefundEntry)) c t e :
  (c, (t, e)) ∈ repaymentPairs fillsToRefund ↔ bucket fillsToRefund c t = Some e.
Proof.
  unfold repaymentPairs, bucket. rewrite list_elem_of_bind. split.
  - intros [[c' m] [Hin Hm]]. apply list_elem_of_fmap in Hin as [[t' e'] [Heq Hin]].
    inversion Heq; subst. apply elem_of_objectEntries in Hm, Hin.
    by rewrite Hm.
  - destruct (fillsToRefund !! c) as [m|] eqn:Hm; simpl; [|done].
    intros Hte. exists (c, m). split; [|by apply elem_of_objectEntries].
    apply list_elem_of_fmap. exists (t, e). split; [done|].
    by apply elem_of_objectEntries.
Qed.

Lemma NoDup_repaymentPairs (fillsToRefund : gmap N (gmap N RefundEntry)) :
  NoDup (repaymentPairs fillsToRefund).
Proof.
  unfold repaymentPairs. apply NoDup_bind.
  - intros [c1 m1] [c2 m2] [c te] Hin1 Hin2 Hy1 Hy2.
    apply list_elem_of_fmap in Hy1 as [? [Heq1 _]], Hy2 as [? [Heq2 _]].
    inversion Heq1; inversion Heq2; subst.
    apply elem_of_objectEntries in Hin1, Hin2. congruence.
  - intros [c m] _. apply NoDup_fmap_2; [|apply NoDup_objectEntries].
    by intros ?? [=].
  - apply NoDup_objectEntries.
Qed.

Lemma foldl_recordRepayment_pairs (entries : list (N * gmap N RefundEntry)) ledgers :
  foldl (λ ledgers '(repaymentChainId, refundsForChain),
           foldl (recordRepayment assignExisting latestMainnetBlock hubPoolClient
                    repaymentChainId)
                 ledgers (objectEntries refundsForChain))
        ledgers entries
  = foldl (λ ledgers pair,
             recordRepayment assignExisting latestMainnetBlock hubPoolClient
               pair.1 ledgers pair.2)
          ledgers
          (entries ≫= λ '(c, refundsForChain),
             (λ refund, (c, refund)) <$> objectEntries refundsForChain).
Proof.
  revert ledgers. induction entries as [|[c m] entries IH]; intros ledgers; [done|].
  simpl. rewrite foldl_app, foldl_fmap. simpl. apply IH.
Qed.

Lemma foldl_recordRepayment_writes (pairs : list (N * (N * RefundEntry))) ledgers :
  foldl (λ ledgers pair,
           recordRepayment assignExisting latestMainnetBlock hubPoolClient
             pair.1 ledgers pair.2)
        ledgers pairs
  = (writesTo (omap refundWriteOf pairs) ledgers.1,
     writesTo (feeWriteOf <$> pairs) ledgers.2).
Proof.
  revert ledgers. induction pairs as [|[c [t e]] pairs IH]; intros [ledger lpFees]; [done|].
  simpl. rewrite IH. unfold refundWriteOf, feeWriteOf, refundWrite, feeWrite. simpl.
  by destruct (totalRefundAmount e).
Qed.

Lemma initialize_writes (fillsToRefund : gmap N (gmap N RefundEntry)) :
  initializeRunningBalancesFromRelayerRepayments assignExisting latestMainnetBlock
    hubPoolClient fillsToRefund
  = (writesTo (omap refundWriteOf (repaymentPairs fillsToRefund)) ∅,
     writesTo (feeWriteOf <$> repaymentPairs fillsToRefund) ∅).
Proof.
  unfold initializeRunningBalancesFromRelayerRepayments, repaymentPairs, objectKeys.
  destruct (objectEntries fillsToRefund) as [|entry entries] eqn:Hentries; [done|].
  change (0 <? length ((entry :: entries).*1))%nat with true. cbv iota.
  by rewrite foldl_recordRepayment_pairs, foldl_recordRepayment_writes.
Qed.

Lemma applyWrites_app ws1 ws2 obj :
  writesTo (ws1 ++ ws2) obj = writesTo ws2 (writesTo ws1 obj).
Proof. apply foldl_app. Qed.

Lemma applyWrites_present ws obj c t :
  is_Some (bucket (writesTo ws obj) c t)
  ↔ is_Some (bucket obj c t) ∨ ∃ v, (c, t, v) ∈ ws.
Proof.
  revert obj. induction ws as [|[[c' t'] v'] ws IH]; intros obj; simpl.
  - split; [auto|]. intros [?|[v Hv]]; [done|]. by apply elem_of_nil in Hv.
  - fold (writesTo ws (assign assignExisting obj c' t' v')).
    rewrite IH, bucket_assign. case_decide as Hct.
    + destruct Hct as [-> ->]. split; [|by eauto].
      intros _. right. exists v'. apply elem_of_cons. by left.
    + split.
      * intros [?|[v Hv]]; [by left|]. right. exists v. apply elem_of_cons. by right.
      * intros [?|[v Hv]]; [by left|]. right. exists v.
        apply elem_of_cons in Hv as [Heq|Hv]; [|done].
        inversion Heq; subst. tauto.
Qed.

Lemma applyWrites_untouched ws obj c t :
  (∀ v, (c, t, v) ∉ ws) → bucket (writesTo ws obj) c t = bucket obj c t.
Proof.
  revert obj. induction ws as [|[[c' t'] v'] ws IH]; intros obj Hnot; [done|]. simpl.
  fold (writesTo ws (assign assignExisting obj c' t' v')).
  rewrite IH, bucket_assign.
  - rewrite decide_False; [done|]. intros [-> ->]. apply (Hnot v'), elem_of_cons. by left.
  - intros v Hv. apply (Hnot v), elem_of_cons. by right.
Qed.

Lemma applyWrites_single ws1 ws2 obj c t v :
  bucket obj c t = None → (∀ v', (c, t, v') ∉ ws1) → (∀ v', (c, t, v') ∉ ws2) →
  bucket (writesTo (ws1 ++ (c, t, v) :: ws2) obj) c t = Some v.
Proof.
  intros Hnone H1 H2. rewrite applyWrites_app. simpl.
  fold (writesTo ws2 (assign assignExisting (writesTo ws1 obj) c t v)).
  rewrite applyWrites_untouched, bucket_assign, decide_True by done.
  by rewrite applyWrites_untouched, Hnone.
Qed.

Lemma bucket_empty {V : Type} (c t : N) : bucket (∅ : gmap N (gmap N V)) c t = None.
Proof. unfold bucket. by rewrite lookup_empty. Qed.

(** No other visit of the chain stores to the bucket of the pair [(c, t)]. *)
Lemma writes_elsewhere (fillsToRefund : gmap N (gmap N RefundEntry)) (c t : N)
    (e : RefundEntry) (pairs : list (N * (N * RefundEntry))) :
  (∀ pair, pair ∈ pairs → pair ∈ repaymentPairs fillsToRefund) →
  (c, (t, e)) ∉ pairs →
  bucket fillsToRefund c t = Some e →
  (∀ t' e', bucket fillsToRefund c t' = Some e' →
            l1TokenOf c t' = l1TokenOf c t → t' = t) →
  (∀ v : Z, (c, l1TokenOf c t, v) ∉ omap refundWriteOf pairs) ∧
  (∀ v : Z, (c, l1TokenOf c t, v) ∉ feeWriteOf <$> pairs).
Proof.
  intros Hsub Hnotin He Hinj.
  assert (∀ c' t' e', (c', (t', e')) ∈ pairs → c' = c →
                      l1TokenOf c' t' = l1TokenOf c t → False) as Hno.
  { intros c' t' e' Hin -> Heq.
    pose proof (Hsub _ Hin) as Hb. apply elem_of_repaymentPairs in Hb.
    assert (t' = t) as -> by eauto.
    assert (e' = e) as -> by congruence. done. }
  split; intros v Hv.
  - apply list_elem_of_omap in Hv as [[c' [t' e']] [Hin Hw]].
    unfold refundWriteOf, refundWrite in Hw. simpl in Hw.
    destruct (totalRefundAmount e'); simpl in Hw; [|done].
    inversion Hw; subst. eauto.
  - apply list_elem_of_fmap in Hv as [[c' [t' e']] [Hw Hin]].
    unfold feeWriteOf, feeWrite in Hw. simpl in Hw. inversion Hw; subst. eauto.
Qed.

(** C5, as the code has it: a refund amount is stored in the running-balance
    bucket of the mapped settlement token exactly for the (repayment chain,
    repayment token) pairs whose [totalRefundAmount] is present, be it zero;
    realized LP fees are stored in the fee ledger for every pair of
    [fillsToRefund]; and where a single pair of the chain maps to the bucket,
    the bucket holds that pair's refund amount, and its fees. *)
Theorem repayments_recorded (fillsToRefund : gmap N (gmap N RefundEntry)) :
  let ledgers :=
    initializeRunningBalancesFromRelayerRepayments assignExisting latestMainnetBlock
      hubPoolClient fillsToRefund in
  let l1Token c t := getL1TokenCounterpartAtBlock hubPoolClient c t latestMainnetBlock in
  (∀ c t1, is_Some (bucket ledgers.1 c t1)
           ↔ ∃ t e, bucket fillsToRefund c t = Some e
                    ∧ is_Some (totalRefundAmount e) ∧ l1Token c t = t1) ∧
  (∀ c t1, is_Some (bucket ledgers.2 c t1)
           ↔ ∃ t e, bucket fillsToRefund c t = Some e ∧ l1Token c t = t1) ∧
  (∀ c t e,
     bucket fillsToRefund c t = Some e →
     (∀ t' e', bucket fillsToRefund c t' = Some e' → l1Token c t' = l1Token c t → t' = t) →
     bucket ledgers.1 c (l1Token c t) = totalRefundAmount e
     ∧ bucket ledgers.2 c (l1Token c t) = Some (realizedLpFees e)).
Proof.
  intros ledgers l1Token. subst ledgers. rewrite initialize_writes. simpl.
  change l1Token with l1TokenOf. clear l1Token.
  split; [|split].
  - intros c t1. rewrite applyWrites_present, bucket_empty. split.
    + intros [[? [=]]|[v Hv]].
      apply list_elem_of_omap in Hv as [[c' [t e]] [Hin Hw]].
      unfold refundWriteOf, refundWrite in Hw. simpl in Hw.
      destruct (totalRefundAmount e) as [r|] eqn:Hr; simpl in Hw; [|done].
      inversion Hw; subst. exists t, e.
      apply elem_of_repaymentPairs in Hin. rewrite Hr. eauto.
    + intros (t & e & He & [r Hr] & <-). right. exists r.
      apply list_elem_of_omap. exists (c, (t, e)).
      split; [by apply elem_of_repaymentPairs|].
      unfold refundWriteOf, refundWrite. simpl. by rewrite Hr.
  - intros c t1. rewrite applyWrites_present, bucket_empty. split.
    + intros [[? [=]]|[v Hv]].
      apply list_elem_of_fmap in Hv as [[c' [t e]] [Hw Hin]].
      unfold feeWriteOf, feeWrite in Hw. simpl in Hw. inversion Hw; subst. exists t, e.
      by apply elem_of_repaymentPairs in Hin.
    + intros (t & e & He & <-). right. exists (realizedLpFees e).
      apply list_elem_of_fmap. exists (c, (t, e)).
      split; [done | by apply elem_of_repaymentPairs].
  - intros c t e He Hinj.
    pose proof (NoDup_repaymentPairs fillsToRefund) as Hnd.
    pose proof (proj2 (elem_of_repaymentPairs fillsToRefund c t e) He) as Hin.
    apply list_elem_of_split in Hin as (p1 & p2 & Hsplit).
    rewrite Hsplit in Hnd. apply NoDup_app in Hnd as (_ & Hdisj & Hnd2).
    apply NoDup_cons in Hnd2 as [Hnot2 _].
    assert ((c, (t, e)) ∉ p1) as Hnot1.
    { intros Hin1. apply (Hdisj _ Hin1), elem_of_cons. by left. }
    assert (∀ pair, pair ∈ p1 → pair ∈ repaymentPairs fillsToRefund) as Hsub1.
    { intros pair Hp. rewrite Hsplit. apply elem_of_app. by left. }
    assert (∀ pair, pair ∈ p2 → pair ∈ repaymentPairs fillsToRefund) as Hsub2.
    { intros pair Hp. rewrite Hsplit. apply elem_of_app. right.
      apply elem_of_cons. by right. }
    destruct (writes_elsewhere fillsToRefund c t e p1 Hsub1 Hnot1 He Hinj) as [Hr1 Hf1].
    destruct (writes_elsewhere fillsToRefund c t e p2 Hsub2 Hnot2 He Hinj) as [Hr2 Hf2].
    rewrite Hsplit, omap_app, fmap_app. simpl. split.
    + unfold refundWriteOf at 2. unfold refundWriteOf, refundWrite. simpl.
      destruct (totalRefundAmount e) as [r|] eqn:Hr; simpl.
      * by apply applyWrites_single; [apply bucket_empty|..].
      * rewrite applyWrites_untouched; [apply bucket_empty|].
        intros v Hv. apply elem_of_app in Hv as [Hv|Hv]; [by apply (Hr1 v)|by apply (Hr2 v)].
    + by apply applyWrites_single; [apply bucket_empty|..].
Qed.

End RelayerRepaymentFacts.

(** ** Sorted keys *)

Lemma Sorted_le_NoDup_lt (l : list N) : Sorted N.le l → NoDup l → StronglySorted N.lt l.
Proof.
  intros Hs Hnd. apply Sorted_StronglySorted in Hs; [|apply _].
  induction Hs as [|x l Hs IH Hall]; [constructor|].
  apply NoDup_cons in Hnd as [Hx Hnd]. constructor; [by apply IH|].
  rewrite Forall_forall in Hall |- *. intros y Hy.
  pose proof (Hall y Hy) as Hle.
  assert (x ≠ y) by (intros ->; done). lia.
Qed.

Section SortedKeys.

Context {V : Type}.
Implicit Types m : gmap N V.

(** Sorting forgets the order in which the keys were enumerated. *)
Lemma sorted_keys_unique (keysA keysB : ObjectKeys) m :
  merge_sort N.le (objectKeys (H:=keysA) m) = merge_sort N.le (objectKeys (H:=keysB) m).
Proof.
  apply (Sorted_unique N.le); [apply Sorted_merge_sort, _..|].
  by rewrite !merge_sort_Permutation, !objectKeys_perm.
Qed.

Lemma sorted_keys_ascending `{ObjectKeys} m :
  StronglySorted N.lt (merge_sort N.le (objectKeys m)).
Proof.
  apply Sorted_le_NoDup_lt; [apply Sorted_merge_sort, _|].
  rewrite merge_sort_Permutation. apply NoDup_objectKeys.
Qed.

Lemma length_sorted_keys `{ObjectKeys} m :
  length (merge_sort N.le (objectKeys m)) = size m.
Proof.
  by rewrite merge_sort_Permutation, objectKeys_perm, length_fmap, length_map_to_list.
Qed.

Lemma NoDup_sorted_keys `{ObjectKeys} m : NoDup (merge_sort N.le (objectKeys m)).
Proof. rewrite merge_sort_Permutation. apply NoDup_objectKeys. Qed.

Lemma elem_of_sorted_keys `{ObjectKeys} m k :
  k ∈ merge_sort N.le (objectKeys m) ↔ is_Some (m !! k).
Proof. rewrite merge_sort_Permutation. apply elem_of_objectKeys. Qed.

End SortedKeys.

(** ** [map] with a callback that may throw *)

Lemma bind_Returns {A B : Type} (o : Outcome A) (k : A → Outcome B) (b : B) :
  o ≫= k = Returns b → ∃ a, o = Returns a ∧ k a = Returns b.
Proof. destruct o as [a| |]; simpl; [by exists a | done..]. Qed.

Section MapM.

Context {A B : Type} (f : A → Outcome B).

Lemma mapM_Returns_length (l : list A) (ys : list B) :
  mapM f l = Returns ys → length ys = length l.
Proof.
  revert ys. induction l as [|x l IH]; intros ys; simpl.
  - by intros [= <-].
  - destruct (f x) as [y| |]; simpl; [|done..].
    destruct (mapM f l) as [ys'| |]; simpl; [|done..].
    intros [= <-]. simpl. f_equal. by apply IH.
Qed.

Lemma mapM_Returns_total (l : list A) :
  (∀ x, x ∈ l → ∃ y, f x = Returns y) → ∃ ys, mapM f l = Returns ys.
Proof.
  induction l as [|x l IH]; intros Hall; simpl; [by eexists|].
  destruct (Hall x) as [y Hy]; [by left|]. rewrite Hy. simpl.
  destruct IH as [ys Hys]; [intros x' Hx'; apply Hall; by right|].
  rewrite Hys. simpl. by eexists.
Qed.

End MapM.

(** ** Pool rebalance leaves *)

Section LeafBuilderFacts.

Context `{ObjectKeys}.
Variable latestMainnetBlock : N.
Variable ledger lpFees : gmap N (gmap N Z).
Variable configStoreClient : AcrossConfigStoreClient.
Variable maxL1TokenCount : option nat.
Variable tokenTransferThreshold : option (gmap N Z).

Let maxTokens : nat :=
  maxL1TokensPerLeaf latestMainnetBlock configStoreClient maxL1TokenCount.
Let leafOf :=
  makeLeaf latestMainnetBlock ledger lpFees configStoreClient tokenTransferThreshold.
Let loop :=
  leafLoop latestMainnetBlock ledger lpFees configStoreClient maxL1TokenCount
    tokenTransferThreshold.
Let forChains :=
  forEachChain latestMainnetBlock ledger lpFees configStoreClient maxL1TokenCount
    tokenTransferThreshold.

Lemma makeLeaf_Returns (chain : N) (tokens : list N) (group id : nat) leaf :
  leafOf chain tokens group id = Returns leaf →
  chainId leaf = chain ∧ groupIndex leaf = group ∧ leafId leaf = id
  ∧ l1Tokens leaf = tokens
  ∧ length (bundleLpFees leaf) = length tokens
  ∧ length (netSendAmounts leaf) = length tokens
  ∧ length (runningBalances leaf) = length tokens.
Proof.
  unfold leafOf, makeLeaf. intros Hleaf.
  apply bind_Returns in Hleaf as (thresholds & Hthr & Hleaf).
  apply bind_Returns in Hleaf as (nets & Hnets & Hleaf).
  apply bind_Returns in Hleaf as (bals & Hbals & Hleaf).
  injection Hleaf as <-. simpl.
  apply mapM_Returns_length in Hthr.
  assert (length (zip thresholds tokens) = length tokens) as Hzip.
  { rewrite length_zip_with. lia. }
  repeat split.
  - destruct (lpFees !! chain); [apply length_fmap | apply length_replicate].
  - destruct (ledger !! chain).
    + apply mapM_Returns_length in Hnets. congruence.
    + injection Hnets as <-. apply length_replicate.
  - destruct (ledger !! chain).
    + apply mapM_Returns_length in Hbals. congruence.
    + injection Hbals as <-. apply length_replicate.
Qed.

Lemma makeLeaf_total (chain : N) (tokens : list N) (group id : nat) thresholds :
  tokenTransferThreshold = Some thresholds →
  (∀ forChain t, ledger !! chain = Some forChain → t ∈ tokens → is_Some (forChain !! t)) →
  ∃ leaf, leafOf chain tokens group id = Returns leaf.
Proof.
  intros Htt Hbal. unfold leafOf, makeLeaf.
  destruct (mapM_Returns_total
              (transferThresholdFor latestMainnetBlock configStoreClient
                 tokenTransferThreshold) tokens) as [ths Hths].
  { intros t _. unfold transferThresholdFor. rewrite Htt. by eexists. }
  rewrite Hths. simpl.
  destruct (ledger !! chain) as [forChain|] eqn:Hchain; simpl; [|by eexists].
  assert (∀ g : Z → Z → Z, ∃ ys,
            mapM (λ '(threshold, l1Token),
                    runningBalance ← runningBalanceFor forChain l1Token;
                    mret (g threshold runningBalance)) (zip ths tokens) = Returns ys)
    as Hmap.
  { intros g. apply mapM_Returns_total. intros [th t] Hin.
    apply elem_of_zip_r in Hin. destruct (Hbal forChain t eq_refl Hin) as [b Hb].
    unfold runningBalanceFor. rewrite Hb. simpl. by eexists. }
  destruct (Hmap getNetSendAmountForL1Token) as [nets ->].
  destruct (Hmap getRunningBalanceForL1Token) as [bals ->].
  simpl. by eexists.
Qed.

Lemma leafLoop_Returns (chain : N) (sorted : list N) (fuel i group : nat) leaves out :
  loop chain sorted fuel i group leaves = Returns out →
  ∃ mine, out = leaves ++ mine
          ∧ leavesFrom maxTokens chain sorted i group (length leaves) mine.
Proof.
  revert i group leaves. induction fuel as [|fuel IH]; intros i group leaves; simpl.
  - destruct (Nat.ltb_spec i (length sorted)); [done|].
    intros [= <-]. exists []. by rewrite app_nil_r.
  - destruct (Nat.ltb_spec i (length sorted)) as [Hlt|Hge].
    + fold maxTokens. fold leafOf.
      destruct (leafOf chain _ group (length leaves)) as [leaf| |] eqn:Hleaf;
        simpl; [|done..].
      intros Hloop. apply IH in Hloop as (mine & -> & Hmine).
      apply makeLeaf_Returns in Hleaf as (Hc & Hg & Hid & Htok & Hf & Hn & Hb).
      exists (leaf :: mine). split; [by rewrite <-app_assoc|].
      rewrite length_app in Hmine. simpl in Hmine.
      replace (length leaves + 1)%nat with (S (length leaves)) in Hmine by lia.
      simpl. rewrite Htok. done.
    + intros [= <-]. exists []. by rewrite app_nil_r.
Qed.

Lemma forEachChain_Returns (chains : list N) leaves out :
  forChains chains leaves = Returns out →
  ∃ new, out = leaves ++ new ∧ bundleFrom maxTokens ledger chains (length leaves) new.
Proof.
  revert leaves. induction chains as [|chain chains IH]; intros leaves; simpl.
  - intros [= <-]. exists []. by rewrite app_nil_r.
  - unfold leavesForChain. destruct (ledger !! chain) as [forChain|] eqn:Hchain; [|done].
    fold loop.
    destruct (loop chain _ _ 0%nat 0%nat leaves) as [leaves'| |] eqn:Hloop; simpl; [|done..].
    intros Hrest. apply leafLoop_Returns in Hloop as (mine & -> & Hmine).
    apply IH in Hrest as (others & -> & Hothers).
    exists (mine ++ others). split; [by rewrite <-app_assoc|].
    exists forChain, mine, others. rewrite length_app in Hothers. done.
Qed.

End LeafBuilderFacts.

Section LeavesFromFacts.

Variable maxTokens : nat.
Variable chain : N.
Variable sorted : list N.

Implicit Types leaves : list PoolRebalanceLeaf.

Lemma leavesFrom_ids leaves i group id :
  leavesFrom maxTokens chain sorted i group id leaves →
  leafId <$> leaves = seq id (length leaves).
Proof.
  revert i group id. induction leaves as [|leaf leaves IH]; intros i group id; [done|].
  simpl. intros (_ & _ & _ & -> & _ & _ & _ & _ & Hrest). f_equal. by eapply IH.
Qed.

Lemma leavesFrom_groups leaves i group id :
  leavesFrom maxTokens chain sorted i group id leaves →
  groupIndex <$> leaves = seq group (length leaves).
Proof.
  revert i group id. induction leaves as [|leaf leaves IH]; intros i group id; [done|].
  simpl. intros (_ & _ & -> & _ & _ & _ & _ & _ & Hrest). f_equal. by eapply IH.
Qed.

Lemma leavesFrom_chain leaves i group id :
  leavesFrom maxTokens chain sorted i group id leaves →
  Forall (λ leaf, chainId leaf = chain ∧ (group ≤ groupIndex leaf)%nat) leaves.
Proof.
  revert i group id. induction leaves as [|leaf leaves IH]; intros i group id; [done|].
  simpl. intros (_ & Hc & Hg & _ & _ & _ & _ & _ & Hrest). constructor; [split; [done|lia]|].
  apply IH in Hrest. eapply Forall_impl; [done|]. simpl. intros ? [? ?]. split; [done|lia].
Qed.

Lemma leavesFrom_concat leaves i group id :
  leavesFrom maxTokens chain sorted i group id leaves →
  concat (l1Tokens <$> leaves) = drop i sorted.
Proof.
  revert i group id. induction leaves as [|leaf leaves IH]; intros i group id.
  - simpl. intros Hge. by rewrite drop_ge.
  - intros (_ & _ & _ & _ & Htok & _ & _ & _ & Hrest).
    change (concat (l1Tokens <$> leaf :: leaves))
      with (l1Tokens leaf ++ concat (l1Tokens <$> leaves)).
    rewrite Htok, (IH _ _ _ Hrest), <-drop_drop. apply take_drop.
Qed.

Lemma leavesFrom_lookup leaves i group id j leaf :
  leavesFrom maxTokens chain sorted i group id leaves →
  leaves !! j = Some leaf →
  l1Tokens leaf = take maxTokens (drop (i + j * maxTokens) sorted)
  ∧ (i + j * maxTokens < length sorted)%nat
  ∧ groupIndex leaf = (group + j)%nat
  ∧ leafId leaf = (id + j)%nat.
Proof.
  revert i group id j. induction leaves as [|leaf' leaves IH]; intros i group id j; [done|].
  simpl. intros (Hlt & _ & Hg & Hid & Htok & _ & _ & _ & Hrest).
  destruct j as [|j]; simpl.
  - intros [= <-]. rewrite !Nat.add_0_r. done.
  - intros Hj. destruct (IH _ _ _ _ Hrest Hj) as (Ht & Hl & Hg' & Hid').
    replace (i + (maxTokens + j * maxTokens))%nat
      with (i + maxTokens + j * maxTokens)%nat by lia.
    repeat split; [done|done|lia|lia].
Qed.

Lemma leavesFrom_cover leaves i group id :
  leavesFrom maxTokens chain sorted i group id leaves →
  (length sorted ≤ i + length leaves * maxTokens)%nat.
Proof.
  revert i group id. induction leaves as [|leaf leaves IH]; intros i group id; simpl.
  - lia.
  - intros (_ & _ & _ & _ & _ & _ & _ & _ & Hrest). apply IH in Hrest. lia.
Qed.

(** With a step of zero the loop never gets past a token. *)
Lemma leavesFrom_zero_step leaves i group id :
  maxTokens = 0%nat → (i < length sorted)%nat →
  ¬ leavesFrom maxTokens chain sorted i group id leaves.
Proof.
  intros Hz. revert i group id.
  induction leaves as [|leaf rest IH]; intros i group id Hlt; simpl; [lia|].
  intros (_ & _ & _ & _ & _ & _ & _ & _ & Hrest).
  replace (i + maxTokens)%nat with i in Hrest by lia. by eapply IH.
Qed.

Lemma leavesFrom_step_positive leaf leaves i group id :
  leavesFrom maxTokens chain sorted i group id (leaf :: leaves) → (0 < maxTokens)%nat.
Proof.
  intros Hfrom. destruct (decide (maxTokens = 0%nat)) as [Hz|]; [exfalso|lia].
  eapply leavesFrom_zero_step; [done| |apply Hfrom]. simpl in Hfrom. tauto.
Qed.

Lemma leavesFrom_shape leaves i group id :
  leavesFrom maxTokens chain sorted i group id leaves →
  Forall (λ leaf, leafShape maxTokens leaf ∧ (0 < length (l1Tokens leaf))%nat) leaves.
Proof.
  revert i group id. induction leaves as [|leaf leaves IH]; intros i group id; [done|].
  intros Hfrom. pose proof (leavesFrom_step_positive _ _ _ _ _ Hfrom) as Hpos.
  simpl in Hfrom. destruct Hfrom as (Hlt & _ & _ & _ & Htok & Hf & Hn & Hb & Hrest).
  constructor; [|by eapply IH].
  unfold leafShape. rewrite Hf, Hn, Hb, Htok, length_take, length_drop.
  repeat split; lia.
Qed.

Lemma leavesFrom_tokens_ascending leaves i group id :
  StronglySorted N.lt sorted →
  leavesFrom maxTokens chain sorted i group id leaves →
  Forall (λ leaf, StronglySorted N.lt (l1Tokens leaf)) leaves.
Proof.
  intros Hsorted. revert i group id.
  induction leaves as [|leaf leaves IH]; intros i group id; [done|].
  simpl. intros (_ & _ & _ & _ & Htok & _ & _ & _ & Hrest).
  constructor; [|by eapply IH]. rewrite Htok.
  rewrite <-(take_drop i sorted) in Hsorted.
  apply StronglySorted_app_1_r in Hsorted.
  rewrite <-(take_drop maxTokens (drop i sorted)) in Hsorted.
  by apply StronglySorted_app_1_l in Hsorted.
Qed.

Lemma leavesFrom_five_by_two leaves id :
  length sorted = 5%nat → maxTokens = 2%nat →
  leavesFrom maxTokens chain sorted 0 0 id leaves →
  ∃ a b c, leaves = [a; b; c]
           ∧ groupIndex a = 0%nat ∧ groupIndex b = 1%nat ∧ groupIndex c = 2%nat
           ∧ length (l1Tokens a) = 2%nat ∧ length (l1Tokens b) = 2%nat
           ∧ length (l1Tokens c) = 1%nat.
Proof.
  intros Hlen Hmax Hfrom.
  destruct leaves as [|a [|b [|c [|d rest]]]]; simpl in Hfrom;
    rewrite ?Hlen, ?Hmax in Hfrom;
    repeat match goal with Hand : _ ∧ _ |- _ => destruct Hand end;
    try (exfalso; simpl in *; lia).
  exists a, b, c.
  repeat match goal with
         | Htok : l1Tokens _ = _ |- _ =>
             apply (f_equal length) in Htok;
             rewrite length_take, length_drop, Hlen in Htok
         end.
  simpl in *. repeat split; try done; lia.
Qed.

Lemma leavesFrom_order leaves i group id :
  leavesFrom maxTokens chain sorted i group id leaves → StronglySorted leafBefore leaves.
Proof.
  revert i group id. induction leaves as [|leaf leaves IH]; intros i group id; [constructor|].
  simpl. intros (_ & Hc & Hg & _ & _ & _ & _ & _ & Hrest).
  constructor; [by eapply IH|].
  apply leavesFrom_chain in Hrest. eapply Forall_impl; [done|]. simpl.
  intros leaf' [Hc' Hg']. right. split; [congruence|lia].
Qed.

End LeavesFromFacts.

Section FilterFacts.

Context {A : Type} (P : A → Prop) `{∀ x, Decision (P x)}.

Lemma filter_all (l : list A) : Forall P l → filter P l = l.
Proof.
  induction 1 as [|x l Hx _ IH]; [done|]. by rewrite filter_cons_True, IH.
Qed.

Lemma filter_none (l : list A) : Forall (λ x, ¬ P x) l → filter P l = [].
Proof.
  induction 1 as [|x l Hx _ IH]; [done|]. by rewrite filter_cons_False, IH.
Qed.

End FilterFacts.

Section BundleFromFacts.

Context `{ObjectKeys}.
Variable maxTokens : nat.
Variable ledger : gmap N (gmap N Z).

Implicit Types leaves : list PoolRebalanceLeaf.

Lemma bundleFrom_ids chains id leaves :
  bundleFrom maxTokens ledger chains id leaves →
  leafId <$> leaves = seq id (length leaves).
Proof.
  revert id leaves. induction chains as [|chain chains IH]; intros id leaves; simpl.
  - by intros ->.
  - intros (forChain & mine & others & _ & -> & Hmine & Hothers).
    rewrite fmap_app, length_app, seq_app. f_equal.
    + by eapply leavesFrom_ids.
    + by apply IH.
Qed.

Lemma bundleFrom_chains chains id leaves :
  bundleFrom maxTokens ledger chains id leaves →
  Forall (λ leaf, chainId leaf ∈ chains) leaves.
Proof.
  revert id leaves. induction chains as [|chain chains IH]; intros id leaves; simpl.
  - by intros ->.
  - intros (forChain & mine & others & _ & -> & Hmine & Hothers).
    apply Forall_app. split.
    + apply leavesFrom_chain in Hmine. eapply Forall_impl; [done|]. simpl.
      intros leaf [-> _]. by left.
    + apply IH in Hothers. eapply Forall_impl; [done|]. simpl.
      intros leaf Hin. by right.
Qed.

Lemma bundleFrom_shape chains id leaves :
  bundleFrom maxTokens ledger chains id leaves →
  Forall (λ leaf, leafShape maxTokens leaf
                  ∧ (0 < length (l1Tokens leaf))%nat
                  ∧ StronglySorted N.lt (l1Tokens leaf)) leaves.
Proof.
  revert id leaves. induction chains as [|chain chains IH]; intros id leaves; simpl.
  - by intros ->.
  - intros (forChain & mine & others & _ & -> & Hmine & Hothers).
    apply Forall_app. split; [|by eapply IH].
    pose proof (leavesFrom_shape _ _ _ _ _ _ _ Hmine) as Hshape.
    pose proof (leavesFrom_tokens_ascending _ _ _ _ _ _ _
                  (sorted_keys_ascending forChain) Hmine) as Hasc.
    rewrite Forall_forall in Hshape. rewrite Forall_forall in Hasc.
    apply Forall_forall.
    intros leaf Hin. destruct (Hshape leaf Hin). auto.
Qed.

Lemma bundleFrom_order chains id leaves :
  StronglySorted N.lt chains →
  bundleFrom maxTokens ledger chains id leaves →
  StronglySorted leafBefore leaves.
Proof.
  intros Hsorted. revert id leaves.
  induction Hsorted as [|chain chains Hsorted IH Hall]; intros id leaves; simpl.
  - intros ->. constructor.
  - intros (forChain & mine & others & _ & -> & Hmine & Hothers).
    apply StronglySorted_app_2; [|by eapply leavesFrom_order|by eapply IH].
    intros a b Ha Hb. left.
    apply leavesFrom_chain in Hmine. apply bundleFrom_chains in Hothers.
    rewrite Forall_forall in Hmine. rewrite Forall_forall in Hothers.
    rewrite Forall_forall in Hall.
    destruct (Hmine a Ha) as [-> _]. by apply Hall, Hothers.
Qed.

Lemma bundleFrom_filter chains id leaves chain :
  NoDup chains → chain ∈ chains →
  bundleFrom maxTokens ledger chains id leaves →
  ∃ forChain id',
    ledger !! chain = Some forChain
    ∧ leavesFrom maxTokens chain (sortAddresses (objectKeys forChain)) 0 0 id'
        (filter (λ leaf, chainId leaf = chain) leaves).
Proof.
  intros Hnd Hin. revert id leaves.
  induction chains as [|c chains IH]; intros id leaves; [by apply elem_of_nil in Hin|].
  apply NoDup_cons in Hnd as [Hc Hnd]. simpl.
  intros (forChain & mine & others & Hlook & -> & Hmine & Hothers).
  rewrite filter_app.
  pose proof (leavesFrom_chain _ _ _ _ _ _ _ Hmine) as Hmine_chain.
  pose proof (bundleFrom_chains _ _ _ Hothers) as Hothers_chain.
  destruct (decide (chain = c)) as [->|Hne].
  - exists forChain, id. split; [done|].
    rewrite filter_all, filter_none, app_nil_r; [done|..].
    + eapply Forall_impl; [apply Hothers_chain|]. simpl. intros leaf Hl Heq.
      by rewrite Heq in Hl.
    + eapply Forall_impl; [apply Hmine_chain|]. simpl. by intros leaf [? _].
  - apply elem_of_cons in Hin as [?|Hin]; [done|].
    destruct (IH Hnd Hin _ _ Hothers) as (forChain' & id' & Hlook' & Hfrom).
    exists forChain', id'. split; [done|].
    rewrite filter_none; [done|].
    eapply Forall_impl; [apply Hmine_chain|]. simpl. intros leaf [Heq _]. congruence.
Qed.

End BundleFromFacts.

(** ** The leaf builder returns *)

Section LeafBuilderReturns.

Context `{ObjectKeys}.
Variable latestMainnetBlock : N.
Variable ledger lpFees : gmap N (gmap N Z).
Variable configStoreClient : AcrossConfigStoreClient.
Variable maxL1TokenCount : option nat.
Variable tokenTransferThreshold : option (gmap N Z).

Let maxTokens : nat :=
  maxL1TokensPerLeaf latestMainnetBlock configStoreClient maxL1TokenCount.

(** Fuel that was enough stays enough: the outcome of a loop that ends does
    not depend on the fuel it was given. *)
Lemma leafLoop_more_fuel (chain : N) (sorted : list N) (fuel fuel' i group : nat)
    (leaves : list PoolRebalanceLeaf) :
  (fuel ≤ fuel')%nat →
  leafLoop latestMainnetBlock ledger lpFees configStoreClient maxL1TokenCount
    tokenTransferThreshold chain sorted fuel i group leaves ≠ Diverges →
  leafLoop latestMainnetBlock ledger lpFees configStoreClient maxL1TokenCount
    tokenTransferThreshold chain sorted fuel' i group leaves
  = leafLoop latestMainnetBlock ledger lpFees configStoreClient maxL1TokenCount
      tokenTransferThreshold chain sorted fuel i group leaves.
Proof.
  revert fuel' i group leaves.
  induction fuel as [|fuel IH]; intros fuel' i group leaves Hle; simpl.
  - destruct fuel' as [|fuel']; simpl; [done|].
    destruct (i <? length sorted)%nat; [done|done].
  - destruct fuel' as [|fuel']; [lia|]. simpl.
    destruct (i <? length sorted)%nat; [|done].
    destruct (makeLeaf _ _ _ _ _ _ _ _ _) as [leaf| |]; simpl; [|done..].
    apply IH. lia.
Qed.

(** With a step of zero the loop over a chain that has tokens never ends,
    whatever the fuel. *)
Lemma leafLoop_zero_step (chain : N) (sorted : list N) (fuel i group : nat)
    (leaves : list PoolRebalanceLeaf) :
  maxTokens = 0%nat → (i < length sorted)%nat →
  leafLoop latestMainnetBlock ledger lpFees configStoreClient maxL1TokenCount
    tokenTransferThreshold chain sorted fuel i group leaves = Diverges.
Proof.
  intros Hzero Hlt. revert group leaves.
  induction fuel as [|fuel IH]; intros group leaves; simpl.
  - by destruct (Nat.ltb_spec i (length sorted)); [|lia].
  - destruct (Nat.ltb_spec i (length sorted)); [|lia].
    fold maxTokens. rewrite Hzero, Nat.add_0_r. simpl.
    unfold makeLeaf. simpl.
    destruct (ledger !! chain); simpl; apply IH.
Qed.

Lemma leafLoop_total (chain : N) (sorted : list N) (forChain : gmap N Z)
    (fuel i group : nat) (leaves : list PoolRebalanceLeaf) :
  is_Some tokenTransferThreshold →
  (0 < maxTokens)%nat →
  ledger !! chain = Some forChain →
  (∀ t, t ∈ sorted → is_Some (forChain !! t)) →
  (length sorted ≤ i + fuel * maxTokens)%nat →
  ∃ out,
    leafLoop latestMainnetBlock ledger lpFees configStoreClient maxL1TokenCount
      tokenTransferThreshold chain sorted fuel i group leaves = Returns out.
Proof.
  intros [thresholds Htt] Hpos Hchain Hkeys. revert i group leaves.
  induction fuel as [|fuel IH]; intros i group leaves Hfuel; simpl.
  - destruct (Nat.ltb_spec i (length sorted)); [lia|]. by eexists.
  - destruct (Nat.ltb_spec i (length sorted)); [|by eexists].
    fold maxTokens.
    destruct (makeLeaf_total latestMainnetBlock ledger lpFees configStoreClient
                tokenTransferThreshold chain (take maxTokens (drop i sorted))
                group (length leaves) thresholds Htt) as [leaf Hleaf].
    { intros forChain' t Hchain' Hin.
      assert (forChain' = forChain) as -> by congruence.
      apply Hkeys. eapply sublist_subseteq; [|apply Hin].
      etrans; [apply sublist_take|apply sublist_drop]. }
    rewrite Hleaf. simpl. apply IH. lia.
Qed.

Lemma forEachChain_total (chains : list N) (leaves : list PoolRebalanceLeaf) :
  is_Some tokenTransferThreshold →
  (0 < maxTokens)%nat →
  (∀ chain, chain ∈ chains → is_Some (ledger !! chain)) →
  ∃ out,
    forEachChain latestMainnetBlock ledger lpFees configStoreClient maxL1TokenCount
      tokenTransferThreshold chains leaves = Returns out.
Proof.
  intros Htt Hpos. revert leaves.
  induction chains as [|chain chains IH]; intros leaves Hkeys; simpl; [by eexists|].
  unfold leavesForChain.
  destruct (Hkeys chain) as [forChain Hchain]; [by left|]. rewrite Hchain.
  destruct (leafLoop_total chain (sortAddresses (objectKeys forChain)) forChain
              (length (sortAddresses (objectKeys forChain))) 0 0 leaves
              Htt Hpos Hchain) as [leaves' Hloop].
  { intros t. apply elem_of_sorted_keys. }
  { nia. }
  rewrite Hloop. simpl. apply IH. intros chain' Hin. apply Hkeys. by right.
Qed.

Lemma constructPoolRebalanceLeaves_total :
  is_Some tokenTransferThreshold →
  (0 < maxTokens)%nat →
  ∃ leaves,
    constructPoolRebalanceLeaves latestMainnetBlock ledger lpFees configStoreClient
      maxL1TokenCount tokenTransferThreshold = Returns leaves.
Proof.
  intros Htt Hpos. apply forEachChain_total; [done..|].
  intros chain. apply elem_of_sorted_keys.
Qed.

(** What the builder returns is made of the leaves of each chain, in the
    order of the sorted chain ids. *)
Lemma constructPoolRebalanceLeaves_Returns (leaves : list PoolRebalanceLeaf) :
  constructPoolRebalanceLeaves latestMainnetBlock ledger lpFees configStoreClient
    maxL1TokenCount tokenTransferThreshold = Returns leaves →
  bundleFrom maxTokens ledger (sortChainIds (objectKeys ledger)) 0 leaves.
Proof.
  intros Hret. apply forEachChain_Returns in Hret as (new & -> & Hnew). done.
Qed.

End LeafBuilderReturns.

(** ** The leaf builder does not depend on the enumeration of keys *)

Section LeafBuilderOrder.

Variable keysA keysB : ObjectKeys.
Variable latestMainnetBlock : N.
Variable ledger lpFees : gmap N (gmap N Z).
Variable configStoreClient : AcrossConfigStoreClient.
Variable maxL1TokenCount : option nat.
Variable tokenTransferThreshold : option (gmap N Z).

Lemma leavesForChain_order (leaves : list PoolRebalanceLeaf) (chain : N) :
  leavesForChain (H:=keysA) latestMainnetBlock ledger lpFees configStoreClient
    maxL1TokenCount tokenTransferThreshold leaves chain
  = leavesForChain (H:=keysB) latestMainnetBlock ledger lpFees configStoreClient
      maxL1TokenCount tokenTransferThreshold leaves chain.
Proof.
  unfold leavesForChain, sortAddresses.
  destruct (ledger !! chain) as [forChain|]; [|done].
  by rewrite (sorted_keys_unique keysA keysB).
Qed.

Lemma forEachChain_order (chains : list N) (leaves : list PoolRebalanceLeaf) :
  forEachChain (H:=keysA) latestMainnetBlock ledger lpFees configStoreClient
    maxL1TokenCount tokenTransferThreshold chains leaves
  = forEachChain (H:=keysB) latestMainnetBlock ledger lpFees configStoreClient
      maxL1TokenCount tokenTransferThreshold chains leaves.
Proof.
  revert leaves. induction chains as [|chain chains IH]; intros leaves; [done|].
  simpl. rewrite leavesForChain_order.
  destruct (leavesForChain _ _ _ _ _ _ leaves chain); simpl; [apply IH|done..].
Qed.

End LeafBuilderOrder.

(** C6: the leaf builder is deterministic.  Two invocations on the same
    running balances, realized LP fees, leaf size and thresholds have the same
    outcome, the same leaves in the same order, however each invocation
    happens to enumerate the keys of its objects. *)
Theorem constructPoolRebalanceLeaves_deterministic (keysA keysB : ObjectKeys)
    (latestMainnetBlock : N) (ledger lpFees : gmap N (gmap N Z))
    (configStoreClient : AcrossConfigStoreClient) (maxL1TokenCount : option nat)
    (tokenTransferThreshold : option (gmap N Z)) :
  constructPoolRebalanceLeaves (H:=keysA) latestMainnetBlock ledger lpFees
    configStoreClient maxL1TokenCount tokenTransferThreshold
  = constructPoolRebalanceLeaves (H:=keysB) latestMainnetBlock ledger lpFees
      configStoreClient maxL1TokenCount tokenTransferThreshold.
Proof.
  unfold constructPoolRebalanceLeaves, sortChainIds.
  rewrite (sorted_keys_unique keysA keysB). apply forEachChain_order.
Qed.

(** ** The fees of a chain matter to the leaves of that chain only *)

Section LeafBuilderFees.

Context `{ObjectKeys}.
Variable latestMainnetBlock : N.
Variable ledger lpFees lpFees' : gmap N (gmap N Z).
Variable configStoreClient : AcrossConfigStoreClient.
Variable maxL1TokenCount : option nat.
Variable tokenTransferThreshold : option (gmap N Z).

Lemma makeLeaf_fees (chain : N) (tokens : list N) (group id : nat) :
  lpFees !! chain = lpFees' !! chain →
  makeLeaf latestMainnetBlock ledger lpFees configStoreClient tokenTransferThreshold
    chain tokens group id
  = makeLeaf latestMainnetBlock ledger lpFees' configStoreClient tokenTransferThreshold
      chain tokens group id.
Proof. intros Heq. unfold makeLeaf. by rewrite Heq. Qed.

Lemma leafLoop_fees (chain : N) (sorted : list N) (fuel i group : nat)
    (leaves : list PoolRebalanceLeaf) :
  lpFees !! chain = lpFees' !! chain →
  leafLoop latestMainnetBlock ledger lpFees configStoreClient maxL1TokenCount
    tokenTransferThreshold chain sorted fuel i group leaves
  = leafLoop latestMainnetBlock ledger lpFees' configStoreClient maxL1TokenCount
      tokenTransferThreshold chain sorted fuel i group leaves.
Proof.
  intros Heq. revert i group leaves.
  induction fuel as [|fuel IH]; intros i group leaves; simpl; [done|].
  destruct (i <? length sorted)%nat; [|done].
  rewrite (makeLeaf_fees _ _ _ _ Heq).
  destruct (makeLeaf _ _ lpFees' _ _ _ _ _ _); simpl; [apply IH|done..].
Qed.

Lemma forEachChain_fees (chains : list N) (leaves : list PoolRebalanceLeaf) :
  (∀ chain, chain ∈ chains → lpFees !! chain = lpFees' !! chain) →
  forEachChain latestMainnetBlock ledger lpFees configStoreClient maxL1TokenCount
    tokenTransferThreshold chains leaves
  = forEachChain latestMainnetBlock ledger lpFees' configStoreClient maxL1TokenCount
      tokenTransferThreshold chains leaves.
Proof.
  revert leaves. induction chains as [|chain chains IH]; intros leaves Heq; [done|].
  simpl. unfold leavesForChain.
  destruct (ledger !! chain) as [forChain|]; [|done].
  rewrite (leafLoop_fees _ _ _ _ _ _ (Heq chain ltac:(by left))).
  destruct (leafLoop _ _ lpFees' _ _ _ _ _ _ _ _ _); simpl; [|done..].
  apply IH. intros chain' Hin. apply Heq. by right.
Qed.

End LeafBuilderFees.

(** ** The claims on the leaves *)

Section LeafBuilderClaims.

Context `{ObjectKeys}.
Variable latestMainnetBlock : N.
Variable ledger lpFees : gmap N (gmap N Z).
Variable configStoreClient : AcrossConfigStoreClient.
Variable maxL1TokenCount : option nat.
Variable tokenTransferThreshold : option (gmap N Z).

Let maxTokens : nat :=
  maxL1TokensPerLeaf latestMainnetBlock configStoreClient maxL1TokenCount.
Let built : Outcome (list PoolRebalanceLeaf) :=
  constructPoolRebalanceLeaves latestMainnetBlock ledger lpFees configStoreClient
    maxL1TokenCount tokenTransferThreshold.

(** C7: over the whole output the [leafId]s are [0 .. N-1], each once and in
    order of emission, and the leaves are emitted by ascending chain id, then
    by ascending [groupIndex]. *)
Theorem leaf_ids_consecutive :
  (∀ leaves, built = Returns leaves →
     leafId <$> leaves = seq 0 (length leaves)
     ∧ StronglySorted leafBefore leaves)
  ∧ (is_Some tokenTransferThreshold → (0 < maxTokens)%nat →
     ∃ leaves, built = Returns leaves).
Proof.
  split; [|apply constructPoolRebalanceLeaves_total].
  intros leaves Hret. apply constructPoolRebalanceLeaves_Returns in Hret. split.
  - by eapply bundleFrom_ids.
  - eapply bundleFrom_order; [|done]. apply sorted_keys_ascending.
Qed.

(** C8: in every leaf the sequences [l1Tokens], [bundleLpFees],
    [netSendAmounts] and [runningBalances] are equally long, no longer than
    the leaf size in force, and [l1Tokens] is strictly ascending. *)
Theorem leaf_shape_invariant :
  (∀ leaves, built = Returns leaves →
     Forall (λ leaf, leafShape maxTokens leaf ∧ StronglySorted N.lt (l1Tokens leaf)) leaves)
  ∧ (is_Some tokenTransferThreshold → (0 < maxTokens)%nat →
     ∃ leaves, built = Returns leaves).
Proof.
  split; [|apply constructPoolRebalanceLeaves_total].
  intros leaves Hret. apply constructPoolRebalanceLeaves_Returns in Hret.
  apply bundleFrom_shape in Hret. eapply Forall_impl; [done|]. simpl. tauto.
Qed.

(** C9: within a chain the sorted tokens are cut into consecutive groups of
    at most the leaf size, one leaf per group, the leaf at position [j] among
    the leaves of the chain having [groupIndex] [j]; so the group indices of
    a chain are [0 .. k-1]; and a chain of 5 tokens with a leaf size of 2 has
    exactly 3 leaves, of group index 0, 1 and 2 and of 2, 2 and 1 tokens. *)
Theorem leaves_partition_sorted_tokens :
  is_Some tokenTransferThreshold → (0 < maxTokens)%nat →
  ∃ leaves,
    built = Returns leaves ∧
    ∀ chain forChain,
      ledger !! chain = Some forChain →
      let sorted := sortAddresses (objectKeys forChain) in
      let mine := filter (λ leaf, chainId leaf = chain) leaves in
      concat (l1Tokens <$> mine) = sorted
      ∧ groupIndex <$> mine = seq 0 (length mine)
      ∧ (∀ j leaf,
           mine !! j = Some leaf →
           groupIndex leaf = j
           ∧ l1Tokens leaf = take maxTokens (drop (j * maxTokens) sorted)
           ∧ (0 < length (l1Tokens leaf) ≤ maxTokens)%nat)
      ∧ (length sorted ≤ length mine * maxTokens)%nat
      ∧ (size forChain = 5%nat → maxTokens = 2%nat →
         ∃ a b c, mine = [a; b; c]
                  ∧ groupIndex a = 0%nat ∧ groupIndex b = 1%nat ∧ groupIndex c = 2%nat
                  ∧ length (l1Tokens a) = 2%nat ∧ length (l1Tokens b) = 2%nat
                  ∧ length (l1Tokens c) = 1%nat).
Proof.
  intros Htt Hpos.
  destruct (constructPoolRebalanceLeaves_total latestMainnetBlock ledger lpFees
              configStoreClient maxL1TokenCount tokenTransferThreshold Htt Hpos)
    as [leaves Hret].
  exists leaves. split; [done|]. intros chain forChain Hchain sorted mine.
  apply constructPoolRebalanceLeaves_Returns in Hret.
  destruct (bundleFrom_filter _ _ _ _ _ chain (NoDup_sorted_keys ledger)
              (proj2 (elem_of_sorted_keys ledger chain) (mk_is_Some _ _ Hchain)) Hret)
    as (forChain' & id' & Hchain' & Hfrom).
  assert (forChain' = forChain) as -> by congruence.
  fold sorted in Hfrom. fold mine in Hfrom. fold maxTokens in Hfrom.
  split; [|split; [|split; [|split]]].
  - by rewrite (leavesFrom_concat _ _ _ _ _ _ _ Hfrom).
  - by eapply leavesFrom_groups.
  - intros j leaf Hj.
    destruct (leavesFrom_lookup _ _ _ _ _ _ _ _ _ Hfrom Hj) as (Htok & _ & Hgroup & _).
    pose proof (leavesFrom_shape _ _ _ _ _ _ _ Hfrom) as Hshape.
    destruct (Forall_lookup_1 _ _ _ _ Hshape Hj) as [(_ & _ & _ & Hle) Hpos'].
    rewrite Nat.add_0_l in Htok. done.
  - pose proof (leavesFrom_cover _ _ _ _ _ _ _ Hfrom). lia.
  - intros Hsize Hmax. eapply leavesFrom_five_by_two; [|done|done].
    unfold sorted, sortAddresses. by rewrite length_sorted_keys.
Qed.

(** C10: a chain with realized LP fees but no running balances gets no leaf:
    no leaf of the output bears its chain id, and the outcome is the same as
    if its fees were not there. *)
Theorem no_leaf_without_running_balances (chain : N) :
  is_Some (lpFees !! chain) →
  ledger !! chain = None →
  (∀ leaves, built = Returns leaves → Forall (λ leaf, chainId leaf ≠ chain) leaves)
  ∧ built = constructPoolRebalanceLeaves latestMainnetBlock ledger (delete chain lpFees)
              configStoreClient maxL1TokenCount tokenTransferThreshold
  ∧ (is_Some tokenTransferThreshold → (0 < maxTokens)%nat →
     ∃ leaves, built = Returns leaves).
Proof.
  intros _ Hnone.
  assert (chain ∉ sortChainIds (objectKeys ledger)) as Hnot.
  { unfold sortChainIds. rewrite elem_of_sorted_keys, Hnone. by intros [? ?]. }
  split; [|split; [|apply constructPoolRebalanceLeaves_total]].
  - intros leaves Hret. apply constructPoolRebalanceLeaves_Returns in Hret.
    apply bundleFrom_chains in Hret. eapply Forall_impl; [done|]. simpl.
    intros leaf Hin Heq. by rewrite Heq in Hin.
  - unfold built, constructPoolRebalanceLeaves. apply forEachChain_fees.
    intros chain' Hin. rewrite lookup_delete_ne; [done|]. by intros ->.
Qed.

End LeafBuilderClaims.

(** * The properties at the sample inputs *)

Example sampleLeaves_built :
  constructPoolRebalanceLeaves (H:=mapOrderKeys) 0 sampleLedger sampleFees sampleConfig (Some 2%nat)
    (Some sampleThresholds) = Returns sampleLeaves.
Proof. vm_compute. reflexivity. Qed.

Example sampleLeaves_built_backwards :
  constructPoolRebalanceLeaves (H:=reverseOrderKeys) 0 sampleLedger sampleFees
    sampleConfig (Some 2%nat) (Some sampleThresholds) = Returns sampleLeaves.
Proof. vm_compute. reflexivity. Qed.

Example absent_thresholds_throw :
  constructPoolRebalanceLeaves (H:=mapOrderKeys) 0 sampleLedger sampleFees sampleConfig (Some 2%nat) None
  = Throws TypeError.
Proof. vm_compute. reflexivity. Qed.

Example zero_leaf_size_diverges :
  constructPoolRebalanceLeaves (H:=mapOrderKeys) 0 sampleLedger sampleFees
    {| getMaxRefundCountForRelayerRefundLeafForBlock := λ block, 0%nat;
       getTokenTransferThresholdForBlock := λ token block, 10 |}
    None (Some sampleThresholds)
  = Diverges.
Proof. vm_compute. reflexivity. Qed.

(** The slow relay uses up the 40 that were reserved: nothing is taken back. *)
Example slow_fill_uses_reservation :
  subtractExcessForFill knownHistory sampleHub [partialFill; slowCompletingFill] [10%N]
    ∅ slowCompletingFill = (∅, Returns ()).
Proof. reflexivity. Qed.

(** A relayer got there first: the 40 reserved are taken back. *)
Example preempted_slow_fill_is_clawed_back :
  bucket (subtractExcessForFill knownHistory sampleHub [partialFill; completingFill]
            [10%N] ∅ completingFill).1 10 107 = Some (-40).
Proof. reflexivity. Qed.

Lemma excess_subtracted_witness :
  subtractExcessFromPreviousSlowFillsFromRunningBalances knownHistory sampleHub
    [partialFill; completingFill] [10%N] ∅
  = (updateRunningBalance ∅ 10 107 (-40), Returns ())
  ∧ balanceOf
      (subtractExcessFromPreviousSlowFillsFromRunningBalances knownHistory sampleHub
         [partialFill; completingFill] [10%N] ∅).1 10 107 = -40.
Proof.
  destruct (excess_subtracted_for_completing_fill knownHistory sampleHub
              [partialFill; completingFill] [10%N] ∅ [partialFill] [] completingFill
              partialFill)
    as (_ & Hengine & _); [reflexivity | reflexivity | discriminate | reflexivity |].
  rewrite (Hengine ∅ eq_refl). split; reflexivity.
Defined.

Lemma missing_reservation_witness :
  ∃ ledger',
    subtractExcessFromPreviousSlowFillsFromRunningBalances brokenHistory sampleHub
      [partialFill; completingFill] [10%N] ∅ = (ledger', Throws missingLastFill).
Proof.
  apply (missing_reservation_fill_is_fatal brokenHistory sampleHub
           [partialFill; completingFill] [10%N] ∅ completingFill).
  - apply elem_of_cons. right. apply elem_of_cons. by left.
  - reflexivity.
  - discriminate.
  - reflexivity.
Defined.

Lemma same_window_witness :
  subtractExcessForFill freshHistory sampleHub [completingFill] [10%N] ∅ completingFill
  = (∅, Returns ()).
Proof.
  apply (no_correction_within_same_window freshHistory sampleHub [completingFill]
           [10%N] ∅ completingFill); reflexivity.
Defined.

(** C5 as stated fails: a refund amount that is present and zero is stored,
    the bucket exists afterwards, though no pair of the chain has a nonzero
    refund amount. *)
Lemma zero_refund_is_recorded :
  bucket (initializeRunningBalancesFromRelayerRepayments (H:=mapOrderKeys) overwrite 0 sampleHub
            zeroRefund).1 1 107 = Some 0
  ∧ ¬ ∃ token entry amount,
        bucket zeroRefund 1 token = Some entry
        ∧ totalRefundAmount entry = Some amount
        ∧ amount ≠ 0.
Proof.
  split; [vm_compute; reflexivity|].
  intros (token & entry & refund & Hentry & Hrefund & Hnonzero).
  unfold bucket, zeroRefund in Hentry. rewrite lookup_singleton_eq in Hentry.
  simpl in Hentry. apply lookup_singleton_Some in Hentry as [_ <-].
  simpl in Hrefund. congruence.
Qed.

Lemma repayments_recorded_witness :
  bucket (initializeRunningBalancesFromRelayerRepayments (H:=mapOrderKeys) overwrite 0 sampleHub
            zeroRefund).1 1 107 = Some 0
  ∧ bucket (initializeRunningBalancesFromRelayerRepayments (H:=mapOrderKeys) overwrite 0 sampleHub
              zeroRefund).2 1 107 = Some 3.
Proof.
  apply (proj2 (proj2 (repayments_recorded (H:=mapOrderKeys) overwrite 0 sampleHub zeroRefund)) 1%N 7%N
           {| totalRefundAmount := Some 0; realizedLpFees := 3 |}).
  - reflexivity.
  - intros token entry Hentry _.
    unfold bucket, zeroRefund in Hentry. rewrite lookup_singleton_eq in Hentry.
    simpl in Hentry. by apply lookup_singleton_Some in Hentry as [<- _].
Defined.

Lemma leaf_ids_witness :
  leafId <$> sampleLeaves = seq 0 (length sampleLeaves)
  ∧ StronglySorted leafBefore sampleLeaves.
Proof.
  apply (proj1 (leaf_ids_consecutive (H:=mapOrderKeys) 0 sampleLedger sampleFees sampleConfig
                  (Some 2%nat) (Some sampleThresholds))).
  vm_compute. reflexivity.
Defined.

Lemma leaf_shape_witness :
  Forall (λ leaf, leafShape 2 leaf ∧ StronglySorted N.lt (l1Tokens leaf)) sampleLeaves.
Proof.
  apply (proj1 (leaf_shape_invariant (H:=mapOrderKeys) 0 sampleLedger sampleFees sampleConfig
                  (Some 2%nat) (Some sampleThresholds))).
  vm_compute. reflexivity.
Defined.

Lemma five_tokens_witness :
  ∃ leaves,
    constructPoolRebalanceLeaves (H:=mapOrderKeys) 0 sampleLedger sampleFees sampleConfig (Some 2%nat)
      (Some sampleThresholds) = Returns leaves
    ∧ ∃ a b c,
        filter (λ leaf, chainId leaf = 10%N) leaves = [a; b; c]
        ∧ groupIndex a = 0%nat ∧ groupIndex b = 1%nat ∧ groupIndex c = 2%nat
        ∧ length (l1Tokens a) = 2%nat ∧ length (l1Tokens b) = 2%nat
        ∧ length (l1Tokens c) = 1%nat.
Proof.
  destruct (leaves_partition_sorted_tokens (H:=mapOrderKeys) 0 sampleLedger sampleFees sampleConfig
              (Some 2%nat) (Some sampleThresholds))
    as (leaves & Hbuilt & Hgroups); [by eexists | simpl; lia |].
  exists leaves. split; [exact Hbuilt|].
  destruct (Hgroups 10%N
              (list_to_map [(5%N, 100); (1%N, -7); (9%N, 3); (4%N, 0); (2%N, 50)]))
    as (_ & _ & _ & _ & Hfive); [reflexivity|].
  apply Hfive; reflexivity.
Defined.

Lemma no_leaf_witness :
  Forall (λ leaf, chainId leaf ≠ 7%N) sampleLeaves.
Proof.
  apply (proj1 (no_leaf_without_running_balances (H:=mapOrderKeys) 0 sampleLedger sampleFees sampleConfig
                  (Some 2%nat) (Some sampleThresholds) 7%N
                  ltac:(by eexists) ltac:(reflexivity))).
  vm_compute. reflexivity.
Defined.

(** * Further properties *)

(** ** Threshold policy *)

(** X1: what the policy sends and what it carries add up to the balance, and
    the policy applied again to what was carried sends nothing and carries
    the same amount. *)
Theorem threshold_policy_conserves_and_settles (T B : Z) :
  getNetSendAmountForL1Token T B + getRunningBalanceForL1Token T B = B
  ∧ getNetSendAmountForL1Token T (getRunningBalanceForL1Token T B) = 0
  ∧ getRunningBalanceForL1Token T (getRunningBalanceForL1Token T B)
    = getRunningBalanceForL1Token T B.
Proof.
  unfold getNetSendAmountForL1Token, getRunningBalanceForL1Token.
  destruct (Z.geb_spec (Z.abs B) T), (Z.ltb_spec (Z.abs B) T); try lia.
  - change (Z.abs 0) with 0.
    destruct (Z.geb_spec 0 T), (Z.ltb_spec 0 T); lia.
  - destruct (Z.geb_spec (Z.abs B) T), (Z.ltb_spec (Z.abs B) T); lia.
Qed.

(** ** Running balance updates *)

Lemma updateRunningBalance_chain (ledger : RunningBalances) (c t c' : N) (a : Z) :
  updateRunningBalance ledger c t a !! c' =
    if decide (c' = c)
    then Some (<[t := match default ∅ (ledger !! c) !! t with
                      | Some runningBalance => runningBalance + a
                      | None => a
                      end]> (default ∅ (ledger !! c)))
    else ledger !! c'.
Proof.
  unfold updateRunningBalance. case_decide as Hc.
  - subst. by rewrite lookup_insert_eq.
  - by rewrite lookup_insert_ne.
Qed.

Lemma updateRunningBalance_twice (ledger : RunningBalances) (c t : N) (a b : Z) :
  updateRunningBalance (updateRunningBalance ledger c t a) c t b
  = updateRunningBalance ledger c t (a + b).
Proof.
  unfold updateRunningBalance at 1. rewrite updateRunningBalance_chain, decide_True by done.
  simpl. rewrite lookup_insert_eq, insert_insert_eq.
  unfold updateRunningBalance. rewrite insert_insert_eq. do 2 f_equal.
  destruct (default ∅ (ledger !! c) !! t); lia.
Qed.

Lemma updateRunningBalance_swap (ledger : RunningBalances) (c t c' t' : N) (a b : Z) :
  updateRunningBalance (updateRunningBalance ledger c t a) c' t' b
  = updateRunningBalance (updateRunningBalance ledger c' t' b) c t a.
Proof.
  destruct (decide (c = c')) as [<-|Hc].
  - destruct (decide (t = t')) as [<-|Ht].
    + rewrite !updateRunningBalance_twice. f_equal. lia.
    + unfold updateRunningBalance at 1 3.
      rewrite !updateRunningBalance_chain, !decide_True by done. simpl.
      rewrite !lookup_insert_ne by done.
      unfold updateRunningBalance. rewrite !insert_insert_eq. f_equal.
      by apply insert_insert_ne.
  - unfold updateRunningBalance at 1 3.
    rewrite !updateRunningBalance_chain, !decide_False by done.
    unfold updateRunningBalance. by apply insert_insert_ne.
Qed.

(** X2: after [updateRunningBalance] the bucket exists, also for an amount of
    zero, and holds the former balance (zero for a missing bucket) plus the
    amount; every other bucket is as it was, and no chain is dropped. *)
Theorem updateRunningBalance_then_lookup (ledger : RunningBalances) (c t : N) (a : Z) :
  bucket (updateRunningBalance ledger c t a) c t = Some (balanceOf ledger c t + a)
  ∧ (∀ c' t', (c', t') ≠ (c, t) →
       bucket (updateRunningBalance ledger c t a) c' t' = bucket ledger c' t')
  ∧ (∀ c', is_Some (ledger !! c') → is_Some (updateRunningBalance ledger c t a !! c')).
Proof.
  split; [|split].
  - by rewrite bucket_updateRunningBalance, decide_True.
  - intros c' t' Hne. rewrite bucket_updateRunningBalance, decide_False; [done|].
    intros [-> ->]. done.
  - intros c' Hsome. rewrite updateRunningBalance_chain. by case_decide.
Qed.

Lemma updateRunningBalance_witness :
  bucket (updateRunningBalance ∅ 10 107 0) 10 107 = Some 0.
Proof.
  destruct (updateRunningBalance_then_lookup ∅ 10 107 0) as [Hhere _].
  rewrite Hhere. reflexivity.
Defined.

Lemma foldl_swap_perm {A B : Type} (f : A → B → A) (l l' : list B) :
  (∀ a x y, f (f a x) y = f (f a y) x) →
  l ≡ₚ l' → ∀ a, foldl f a l = foldl f a l'.
Proof.
  intros Hswap Hperm. induction Hperm as [|x l l' _ IH|x y l|l l' l'' _ IH1 _ IH2];
    intros a; simpl.
  - done.
  - apply IH.
  - by rewrite Hswap.
  - by rewrite IH1, IH2.
Qed.

Lemma applyUpdates_balance (updates : list (N * N * Z)) (ledger : RunningBalances) (c t : N) :
  balanceOf (applyUpdates updates ledger) c t
  = balanceOf ledger c t + sumZ (bookedOn c t updates).
Proof.
  unfold applyUpdates, bookedOn. revert ledger.
  induction updates as [|[[c' t'] a] updates IH]; intros ledger; simpl; [lia|].
  rewrite IH, balanceOf_updateRunningBalance, filter_cons. simpl.
  destruct (decide ((c', t') = (c, t))) as [[= -> ->]|Hne].
  - rewrite decide_True by done. rewrite fmap_cons, sumZ_cons. simpl. lia.
  - rewrite decide_False; [done|]. intros [-> ->]. done.
Qed.

Lemma applyUpdates_perm (updates updates' : list (N * N * Z)) (ledger : RunningBalances) :
  updates ≡ₚ updates' → applyUpdates updates ledger = applyUpdates updates' ledger.
Proof.
  intros Hperm. unfold applyUpdates. apply foldl_swap_perm; [|done].
  intros a x y. apply updateRunningBalance_swap.
Qed.

(** X3: after any series of [updateRunningBalance] calls the balance of a
    bucket is its former balance plus the sum of the amounts booked on it,
    and the ledger is the same in whatever order the calls are made. *)
Theorem running_balance_updates_add_up (updates : list (N * N * Z))
    (ledger : RunningBalances) :
  (∀ c t, balanceOf (applyUpdates updates ledger) c t
          = balanceOf ledger c t + sumZ (bookedOn c t updates))
  ∧ (∀ updates', updates ≡ₚ updates' →
       applyUpdates updates' ledger = applyUpdates updates ledger).
Proof.
  split.
  - intros c t. apply applyUpdates_balance.
  - intros updates' Hperm. symmetry. by apply applyUpdates_perm.
Qed.

(** ** Slow fills *)

Lemma addSlowFills_as_updates (latestMainnetBlock : N) (ledger : RunningBalances)
    (hubPoolClient : HubPoolClient) (unfilledDeposits : list UnfilledDeposit) :
  addSlowFillsToRunningBalances latestMainnetBlock ledger hubPoolClient unfilledDeposits
  = applyUpdates
      ((λ u, (slowFillBucket latestMainnetBlock hubPoolClient u, unfilledAmount u))
         <$> unfilledDeposits) ledger.
Proof.
  unfold addSlowFillsToRunningBalances, applyUpdates. by rewrite foldl_fmap.
Qed.

(** X4: [addSlowFillsToRunningBalances] adds to each bucket the unfilled
    amounts of the deposits whose destination chain and origin-token
    counterpart (resolved at the latest mainnet block) are that bucket, and
    the ledger it leaves does not depend on the order of the deposits. *)
Theorem slow_fills_added_per_bucket (latestMainnetBlock : N) (ledger : RunningBalances)
    (hubPoolClient : HubPoolClient) (unfilledDeposits : list UnfilledDeposit) :
  (∀ c t,
     balanceOf (addSlowFillsToRunningBalances latestMainnetBlock ledger hubPoolClient
                  unfilledDeposits) c t
     = balanceOf ledger c t
       + sumZ (unfilledAmount
                 <$> filter (λ u, slowFillBucket latestMainnetBlock hubPoolClient u = (c, t))
                       unfilledDeposits))
  ∧ (∀ unfilledDeposits', unfilledDeposits ≡ₚ unfilledDeposits' →
       addSlowFillsToRunningBalances latestMainnetBlock ledger hubPoolClient
         unfilledDeposits'
       = addSlowFillsToRunningBalances latestMainnetBlock ledger hubPoolClient
           unfilledDeposits).
Proof.
  split.
  - intros c t. rewrite addSlowFills_as_updates, applyUpdates_balance. f_equal.
    unfold bookedOn. f_equal.
    induction unfilledDeposits as [|u us IH]; [done|].
    rewrite fmap_cons, !filter_cons. cbn [fst].
    destruct (decide (slowFillBucket latestMainnetBlock hubPoolClient u = (c, t)));
      rewrite ?fmap_cons; cbn [snd]; by rewrite IH.
  - intros ds' Hperm. rewrite !addSlowFills_as_updates. symmetry.
    apply applyUpdates_perm. by rewrite Hperm.
Qed.

(** ** Carried balances *)

Section LastRunningBalanceFacts.

Context `{ObjectKeys}.
Variable lastBalance : N → N → N → Z.
Variable latestMainnetBlock : N.

Let carried (c t : N) (balance : Z) : Z := balance + lastBalance latestMainnetBlock c t.

Lemma addLastForToken_bucket (ledger : RunningBalances) (c t c' t' : N) :
  is_Some (bucket ledger c t) →
  bucket (addLastForToken lastBalance latestMainnetBlock c ledger t) c' t'
  = if decide (c' = c ∧ t' = t) then carried c t <$> bucket ledger c t
    else bucket ledger c' t'.
Proof.
  intros [balance Hbalance]. unfold addLastForToken, carried.
  destruct (Z.eqb_spec (lastBalance latestMainnetBlock c t) 0) as [Hzero|Hnonzero].
  - case_decide as Hct; [|done]. destruct Hct as [-> ->].
    rewrite Hbalance, Hzero. simpl. f_equal. lia.
  - rewrite bucket_updateRunningBalance. case_decide; [|done].
    unfold balanceOf. by rewrite Hbalance.
Qed.

Lemma addLastForToken_chain (ledger : RunningBalances) (c t c' : N) :
  is_Some (bucket ledger c t) →
  is_Some (addLastForToken lastBalance latestMainnetBlock c ledger t !! c')
  ↔ is_Some (ledger !! c').
Proof.
  intros [balance Hbalance]. unfold addLastForToken.
  destruct (_ =? 0); [done|]. rewrite updateRunningBalance_chain.
  case_decide as Hc; [|done]. subst c'. split; [|by eauto].
  intros _. unfold bucket in Hbalance. by destruct (ledger !! c).
Qed.

Lemma addLastForTokens (tokens : list N) (ledger : RunningBalances) (c : N) :
  NoDup tokens →
  (∀ t, t ∈ tokens → is_Some (bucket ledger c t)) →
  let ledger' := foldl (addLastForToken lastBalance latestMainnetBlock c) ledger tokens in
  (∀ c' t', bucket ledger' c' t'
            = if decide (c' = c ∧ t' ∈ tokens) then carried c t' <$> bucket ledger c t'
              else bucket ledger c' t')
  ∧ (∀ c', is_Some (ledger' !! c') ↔ is_Some (ledger !! c')).
Proof.
  revert ledger. induction tokens as [|t tokens IH]; intros ledger Hnd Hin; simpl.
  - split; [|done]. intros c' t'. rewrite decide_False; [done|].
    intros [_ Hnil]. by apply elem_of_nil in Hnil.
  - apply NoDup_cons in Hnd as [Hnot Hnd].
    assert (is_Some (bucket ledger c t)) as Ht by (apply Hin; by left).
    destruct (IH (addLastForToken lastBalance latestMainnetBlock c ledger t) Hnd)
      as [Hbuckets Hchains].
    { intros t' Ht'. rewrite addLastForToken_bucket by done.
      rewrite decide_False; [apply Hin; by right|]. intros [_ ->]. done. }
    split.
    + intros c' t'. rewrite Hbuckets.
      destruct (decide (c' = c)) as [->|Hc].
      * destruct (decide (t' = t)) as [->|Hneq].
        -- rewrite decide_False by (intros [_ ?]; done).
           rewrite decide_True by (split; [done|by left]).
           rewrite addLastForToken_bucket by done. by rewrite decide_True.
        -- rewrite addLastForToken_bucket by done.
           rewrite (decide_False (P:=c = c ∧ t' = t)) by (intros [_ ?]; done).
           destruct (decide (t' ∈ tokens)) as [Hin'|Hnin].
           ++ rewrite !decide_True; [done|split; [done|by right]|done].
           ++ rewrite !decide_False; [done| |by intros [_ ?]].
              intros [_ Hcons]. apply elem_of_cons in Hcons as [?|?]; done.
      * rewrite !decide_False by (intros [? _]; done).
        rewrite addLastForToken_bucket by done. rewrite decide_False; [done|].
        intros [? _]. done.
    + intros c'. rewrite Hchains. by apply addLastForToken_chain.
Qed.

Lemma addLastForChain_spec (ledger : RunningBalances) (c : N) :
  is_Some (ledger !! c) →
  ∃ ledger',
    addLastForChain lastBalance latestMainnetBlock ledger c = (ledger', Returns ())
    ∧ (∀ c' t', bucket ledger' c' t'
                = if decide (c' = c) then carried c t' <$> bucket ledger c t'
                  else bucket ledger c' t')
    ∧ (∀ c', is_Some (ledger' !! c') ↔ is_Some (ledger !! c')).
Proof.
  intros [forChain Hchain]. unfold addLastForChain. rewrite Hchain.
  eexists. split; [reflexivity|].
  destruct (addLastForTokens (objectKeys forChain) ledger c) as [Hbuckets Hchains].
  { apply NoDup_objectKeys. }
  { intros t Ht. apply elem_of_objectKeys in Ht. unfold bucket. by rewrite Hchain. }
  split; [|done]. intros c' t'. rewrite Hbuckets.
  destruct (decide (c' = c)) as [->|Hc].
  - destruct (decide (t' ∈ objectKeys forChain)) as [Hin|Hnin].
    + by rewrite decide_True.
    + rewrite decide_False by (intros [_ ?]; done).
      unfold bucket. rewrite Hchain. simpl.
      rewrite elem_of_objectKeys in Hnin.
      destruct (forChain !! t') eqn:Hlook; [|done]. exfalso. apply Hnin. by eexists.
  - rewrite decide_False; [done|]. intros [? _]. done.
Qed.

Lemma forEachRepaymentChain_spec (chains : list N) (ledger : RunningBalances) :
  NoDup chains →
  (∀ c, c ∈ chains → is_Some (ledger !! c)) →
  ∃ ledger',
    forEachRepaymentChain lastBalance latestMainnetBlock chains ledger
      = (ledger', Returns ())
    ∧ (∀ c t, bucket ledger' c t
              = if decide (c ∈ chains) then carried c t <$> bucket ledger c t
                else bucket ledger c t)
    ∧ (∀ c, is_Some (ledger' !! c) ↔ is_Some (ledger !! c)).
Proof.
  revert ledger. induction chains as [|chain chains IH]; intros ledger Hnd Hin.
  - exists ledger. split; [done|]. split; [|done]. intros c t.
    rewrite decide_False; [done|]. apply not_elem_of_nil.
  - apply NoDup_cons in Hnd as [Hnot Hnd].
    destruct (addLastForChain_spec ledger chain) as (ledger1 & Hstep & Hb1 & Hc1).
    { apply Hin. by left. }
    destruct (IH ledger1 Hnd) as (ledger2 & Hrest & Hb2 & Hc2).
    { intros c Hc. apply Hc1, Hin. by right. }
    exists ledger2. simpl. rewrite Hstep. split; [done|]. split.
    + intros c t. rewrite Hb2, Hb1.
      destruct (decide (c = chain)) as [->|Hne].
      * rewrite decide_False by done. rewrite decide_True by (by left). done.
      * destruct (decide (c ∈ chains)) as [Hc|Hc].
        -- rewrite decide_True by (by right). done.
        -- rewrite decide_False; [done|].
           intros Hcons. apply elem_of_cons in Hcons as [?|?]; done.
    + intros c. by rewrite Hc2, Hc1.
Qed.

(** X5: [addLastRunningBalance] returns, and adds to every bucket that is in
    the running balances the balance carried for its chain and token; it
    creates no bucket, so a balance carried for a chain and token that have
    no bucket is left out, and it drops no chain. *)
Theorem carried_balances_go_to_existing_buckets (ledger : RunningBalances) :
  ∃ ledger',
    addLastRunningBalance lastBalance latestMainnetBlock ledger = (ledger', Returns ())
    ∧ (∀ c t, bucket ledger' c t
              = (λ balance, balance + lastBalance latestMainnetBlock c t)
                  <$> bucket ledger c t)
    ∧ (∀ c, is_Some (ledger' !! c) ↔ is_Some (ledger !! c)).
Proof.
  destruct (forEachRepaymentChain_spec (objectKeys ledger) ledger)
    as (ledger' & Hrun & Hbuckets & Hchains).
  { apply NoDup_objectKeys. }
  { intros c. apply elem_of_objectKeys. }
  exists ledger'. split; [done|]. split; [|done].
  intros c t. rewrite Hbuckets. case_decide as Hc; [done|].
  rewrite elem_of_objectKeys in Hc. unfold bucket.
  destruct (ledger !! c) eqn:Hlook; [|done]. exfalso. apply Hc. by eexists.
Qed.

End LastRunningBalanceFacts.

(** ** Excess from previous slow fills, over the whole loop *)

Section ExcessLoopFacts.

Variable getFillData : FillWithBlock → list FillWithBlock → HubPoolClient → list N → FillData.
Variable hubPoolClient : HubPoolClient.
Variable allValidFills : list FillWithBlock.
Variable chainIds : list N.

Let turn := subtractExcessForFill getFillData hubPoolClient allValidFills chainIds.
Let loop := forEachFill getFillData hubPoolClient allValidFills chainIds.
Let excess := excessOf getFillData hubPoolClient allValidFills chainIds.
Let firstWindow := firstFillWindow getFillData hubPoolClient allValidFills chainIds.
Let fullWindow := fullFillWindow hubPoolClient chainIds.
Let reservation := reservationFill getFillData hubPoolClient allValidFills chainIds.

(** X6: when the correction returns, the balance of every bucket has gone
    down by the sum, over the fills booked on that bucket, of what is taken
    back for each: the excess of a fill that completes its deposit in
    another window than the first fill, nothing for any other fill. *)
Theorem excess_subtracted_over_all_fills (ledger ledger' : RunningBalances) :
  subtractExcessFromPreviousSlowFillsFromRunningBalances getFillData hubPoolClient
    allValidFills chainIds ledger = (ledger', Returns ()) →
  ∀ c t,
    balanceOf ledger' c t
    = balanceOf ledger c t
      - sumZ (excess <$> filter (λ fill, fillBucket hubPoolClient fill = (c, t))
                           allValidFills).
Proof. intros Hrun. by apply loop_balance. Qed.

Lemma loop_untouched (fills : list FillWithBlock) (ledger : RunningBalances) :
  (∀ fill, fill ∈ fills →
     totalFilledAmount fill ≠ amount fill ∨ firstWindow fill = fullWindow fill) →
  loop fills ledger = (ledger, Returns ()).
Proof.
  induction fills as [|fill fills IH]; intros Hall; [done|].
  change (loop (fill :: fills) ledger)
    with (match turn ledger fill with
          | (ledger', Returns _) => loop fills ledger'
          | stopped => stopped
          end).
  assert (turn ledger fill = (ledger, Returns ())) as ->.
  { unfold turn, subtractExcessForFill.
    destruct (Hall fill) as [Hpartial|Hsame]; [by left|..].
    - by destruct (Z.eqb_spec (totalFilledAmount fill) (amount fill)).
    - destruct (totalFilledAmount fill =? amount fill); [|done].
      by rewrite decide_True. }
  apply IH. intros fill' Hin. apply Hall. by right.
Qed.

(** X7: when every fill either leaves its deposit incomplete or lies in the
    same settlement window as the first fill of its deposit, the correction
    returns and the running balances are exactly as they were: no bucket is
    created, none is changed. *)
Theorem no_correction_without_cross_window_completion (ledger : RunningBalances) :
  (∀ fill, fill ∈ allValidFills →
     totalFilledAmount fill ≠ amount fill ∨ firstWindow fill = fullWindow fill) →
  subtractExcessFromPreviousSlowFillsFromRunningBalances getFillData hubPoolClient
    allValidFills chainIds ledger = (ledger, Returns ()).
Proof. intros Hall. by apply loop_untouched. Qed.

(** X8: the correction does not undo what it did when it fails.  When the
    fills before the first one without its reservation fill go through, the
    ledger handed back with the error is the ledger as those fills left it,
    and the fills after the failing one are not looked at. *)
Theorem failed_correction_keeps_earlier_adjustments
    (before after : list FillWithBlock) (failing : FillWithBlock)
    (ledger ledger1 : RunningBalances) :
  allValidFills = before ++ failing :: after →
  loop before ledger = (ledger1, Returns ()) →
  totalFilledAmount failing = amount failing →
  firstWindow failing ≠ fullWindow failing →
  reservation failing = None →
  subtractExcessFromPreviousSlowFillsFromRunningBalances getFillData hubPoolClient
    allValidFills chainIds ledger = (ledger1, Throws missingLastFill).
Proof.
  intros Hfills Hbefore Hfull Hwin Hnone.
  unfold subtractExcessFromPreviousSlowFillsFromRunningBalances.
  fold loop. rewrite Hfills at 1.
  assert (loop (before ++ failing :: after) ledger
          = match loop before ledger with
            | (ledger', Returns _) => loop (failing :: after) ledger'
            | stopped => stopped
            end) as -> by apply loop_app.
  rewrite Hbefore.
  change (loop (failing :: after) ledger1)
    with (match turn ledger1 failing with
          | (ledger', Returns _) => loop after ledger'
          | stopped => stopped
          end).
  assert (turn ledger1 failing = (ledger1, Throws missingLastFill)) as ->; [|done].
  unfold turn. by apply subtractExcessForFill_throws.
Qed.

End ExcessLoopFacts.

(** ** What the leaves report *)

Lemma mapM_Returns_lookup {A B : Type} (f : A → Outcome B) (l : list A) (ys : list B)
    (i : nat) (x : A) :
  mapM f l = Returns ys → l !! i = Some x → ∃ y, f x = Returns y ∧ ys !! i = Some y.
Proof.
  revert ys i. induction l as [|x' l IH]; intros ys i Hmap Hi; [done|].
  simpl in Hmap.
  apply bind_Returns in Hmap as (y' & Hy' & Hmap).
  apply bind_Returns in Hmap as (ys' & Hys' & Hmap).
  injection Hmap as <-.
  destruct i as [|i]; simpl in Hi.
  - injection Hi as <-. by exists y'.
  - destruct (IH ys' i Hys' Hi) as (y & Hy & Hlook). by exists y.
Qed.

Section LeafValues.

Context `{ObjectKeys}.
Variable latestMainnetBlock : N.
Variable ledger lpFees : gmap N (gmap N Z).
Variable configStoreClient : AcrossConfigStoreClient.
Variable maxL1TokenCount : option nat.
Variable tokenTransferThreshold : option (gmap N Z).

Let leafOf :=
  makeLeaf latestMainnetBlock ledger lpFees configStoreClient tokenTransferThreshold.
Let loop :=
  leafLoop latestMainnetBlock ledger lpFees configStoreClient maxL1TokenCount
    tokenTransferThreshold.
Let forChains :=
  forEachChain latestMainnetBlock ledger lpFees configStoreClient maxL1TokenCount
    tokenTransferThreshold.
Let reports (leaf : PoolRebalanceLeaf) : Prop :=
  ∀ i t, l1Tokens leaf !! i = Some t →
    ∃ thresholds,
      tokenTransferThreshold = Some thresholds
      ∧ positionReports latestMainnetBlock ledger lpFees configStoreClient thresholds
          leaf i t.

Lemma makeLeaf_reports (chain : N) (tokens : list N) (group id : nat)
    (leaf : PoolRebalanceLeaf) :
  is_Some (ledger !! chain) →
  leafOf chain tokens group id = Returns leaf → reports leaf.
Proof.
  intros [forChain Hchain] Hleaf i t Hi.
  unfold leafOf, makeLeaf in Hleaf. rewrite Hchain in Hleaf.
  apply bind_Returns in Hleaf as (ths & Hths & Hleaf).
  apply bind_Returns in Hleaf as (nets & Hnets & Hleaf).
  apply bind_Returns in Hleaf as (bals & Hbals & Hleaf).
  injection Hleaf as <-. simpl in Hi |- *.
  destruct (mapM_Returns_lookup _ _ _ _ _ Hths Hi) as (th & Hth & Hthi).
  unfold transferThresholdFor in Hth.
  destruct tokenTransferThreshold as [thresholds|]; [|done].
  injection Hth as <-. exists thresholds. split; [done|].
  assert (zip ths tokens !! i = Some (thresholdInForce latestMainnetBlock
            configStoreClient thresholds t, t)) as Hzip.
  { rewrite lookup_zip_with, Hthi. simpl. by rewrite Hi. }
  destruct (mapM_Returns_lookup _ _ _ _ _ Hnets Hzip) as (net & Hnet & Hneti).
  destruct (mapM_Returns_lookup _ _ _ _ _ Hbals Hzip) as (bal & Hbal & Hbali).
  simpl in Hnet, Hbal. unfold runningBalanceFor in Hnet, Hbal.
  destruct (forChain !! t) as [balance|] eqn:Hbalance; [|done].
  simpl in Hnet, Hbal. injection Hnet as <-. injection Hbal as <-.
  exists balance. unfold positionReports, bucket. simpl.
  rewrite Hchain. simpl. repeat split; [done..|].
  destruct (lpFees !! chain) as [feesForChain|].
  - by rewrite list_lookup_fmap, Hi.
  - apply lookup_replicate_2. by eapply lookup_lt_Some.
Qed.

Lemma leafLoop_reports (chain : N) (sorted : list N) (fuel i group : nat)
    (leaves out : list PoolRebalanceLeaf) :
  is_Some (ledger !! chain) →
  Forall reports leaves →
  loop chain sorted fuel i group leaves = Returns out →
  Forall reports out.
Proof.
  intros Hchain. revert i group leaves.
  induction fuel as [|fuel IH]; intros i group leaves Hleaves; simpl.
  - destruct (i <? length sorted)%nat; [done|]. by intros [= <-].
  - destruct (i <? length sorted)%nat; [|by intros [= <-]].
    intros Hloop. apply bind_Returns in Hloop as (leaf & Hleaf & Hloop).
    apply IH in Hloop; [done|]. apply Forall_app. split; [done|].
    constructor; [|done]. by eapply makeLeaf_reports.
Qed.

Lemma forEachChain_reports (chains : list N) (leaves out : list PoolRebalanceLeaf) :
  Forall reports leaves →
  forChains chains leaves = Returns out →
  Forall reports out.
Proof.
  revert leaves. induction chains as [|chain chains IH]; intros leaves Hleaves; simpl.
  - by intros [= <-].
  - intros Hrun. apply bind_Returns in Hrun as (leaves' & Hchain & Hrun).
    apply IH in Hrun; [done|]. unfold leavesForChain in Hchain.
    destruct (ledger !! chain) as [forChain|] eqn:Hlook; [|done].
    by eapply leafLoop_reports.
Qed.

(** X9: wherever a returned leaf holds a token, the thresholds table was
    supplied and the leaf reports, at that position, the balance of the
    (chain, token) bucket split by the policy for the threshold in force
    (the table's, else the config store's), and the realized fee of the
    bucket; what is sent and what is carried add up to the balance, one of
    the two being zero. *)
Theorem leaves_report_balances_and_fees (leaves : list PoolRebalanceLeaf)
    (leaf : PoolRebalanceLeaf) (i : nat) (l1Token : N) :
  constructPoolRebalanceLeaves latestMainnetBlock ledger lpFees configStoreClient
    maxL1TokenCount tokenTransferThreshold = Returns leaves →
  leaf ∈ leaves →
  l1Tokens leaf !! i = Some l1Token →
  ∃ thresholds balance netSendAmount runningBalance,
    tokenTransferThreshold = Some thresholds
    ∧ positionReports latestMainnetBlock ledger lpFees configStoreClient thresholds
        leaf i l1Token
    ∧ bucket ledger (chainId leaf) l1Token = Some balance
    ∧ netSendAmounts leaf !! i = Some netSendAmount
    ∧ runningBalances leaf !! i = Some runningBalance
    ∧ netSendAmount + runningBalance = balance
    ∧ (netSendAmount = 0 ∨ runningBalance = 0).
Proof.
  intros Hbuilt Hleaf Htoken.
  apply forEachChain_reports in Hbuilt; [|constructor].
  rewrite Forall_forall in Hbuilt.
  destruct (Hbuilt leaf Hleaf i l1Token Htoken) as (thresholds & Htable & Hreports).
  pose proof Hreports as (balance & Hbalance & Hnet & Hcarried & _).
  exists thresholds, balance. eexists. eexists.
  split; [done|]. split; [done|]. split; [done|].
  split; [exact Hnet|]. split; [exact Hcarried|]. split.
  - unfold getNetSendAmountForL1Token, getRunningBalanceForL1Token.
    set (T := thresholdInForce latestMainnetBlock configStoreClient thresholds l1Token).
    destruct (Z.geb_spec (Z.abs balance) T), (Z.ltb_spec (Z.abs balance) T); lia.
  - unfold getNetSendAmountForL1Token, getRunningBalanceForL1Token.
    set (T := thresholdInForce latestMainnetBlock configStoreClient thresholds l1Token).
    destruct (Z.geb_spec (Z.abs balance) T), (Z.ltb_spec (Z.abs balance) T); lia.
Qed.

End LeafValues.

(** ** Which buckets the leaves report, and how many leaves there are *)

Lemma reportedBuckets_cons (leaf : PoolRebalanceLeaf) (leaves : list PoolRebalanceLeaf) :
  reportedBuckets (leaf :: leaves)
  = ((λ l1Token, (chainId leaf, l1Token)) <$> l1Tokens leaf) ++ reportedBuckets leaves.
Proof. reflexivity. Qed.

Lemma reportedBuckets_app (leaves leaves' : list PoolRebalanceLeaf) :
  reportedBuckets (leaves ++ leaves') = reportedBuckets leaves ++ reportedBuckets leaves'.
Proof. apply bind_app. Qed.

Lemma leavesFrom_reported (maxTokens : nat) (chain : N) (sorted : list N)
    (leaves : list PoolRebalanceLeaf) (i group id : nat) :
  leavesFrom maxTokens chain sorted i group id leaves →
  reportedBuckets leaves = (λ l1Token, (chain, l1Token)) <$> drop i sorted.
Proof.
  revert i group id. induction leaves as [|leaf leaves IH]; intros i group id.
  - simpl. intros Hge. by rewrite drop_ge.
  - intros (_ & Hchain & _ & _ & Htokens & _ & _ & _ & Hrest).
    rewrite reportedBuckets_cons, Hchain, Htokens, (IH _ _ _ Hrest), <-fmap_app.
    f_equal. rewrite <-drop_drop. apply take_drop.
Qed.

Lemma leavesFrom_count (maxTokens : nat) (chain : N) (sorted : list N)
    (leaves : list PoolRebalanceLeaf) (group id : nat) :
  leavesFrom maxTokens chain sorted 0 group id leaves →
  length leaves = ((length sorted + maxTokens - 1) / maxTokens)%nat.
Proof.
  intros Hfrom.
  pose proof (leavesFrom_cover _ _ _ _ _ _ _ Hfrom) as Hcover.
  destruct (decide (leaves = [])) as [->|Hne].
  - simpl in Hcover. assert (length sorted = 0%nat) as -> by lia.
    destruct maxTokens as [|m]; [done|].
    symmetry. apply Nat.div_small. lia.
  - destruct leaves as [|leaf rest] eqn:Hleaves; [done|]. rewrite <-Hleaves in *.
    assert (0 < maxTokens)%nat as Hpos.
    { subst leaves. by eapply leavesFrom_step_positive. }
    assert (is_Some (leaves !! (length leaves - 1)%nat)) as [last Hlast].
    { apply lookup_lt_is_Some. subst leaves. simpl. lia. }
    destruct (leavesFrom_lookup _ _ _ _ _ _ _ _ _ Hfrom Hlast) as (_ & Hin & _).
    assert (length leaves ≠ 0%nat) by (subst leaves; done).
    apply (Nat.div_unique _ _ _ (length sorted + maxTokens - 1
                                 - maxTokens * length leaves)); nia.
Qed.

Section LeafCoverage.

Context `{ObjectKeys}.
Variable maxTokens : nat.
Variable ledger : gmap N (gmap N Z).

Lemma bundleFrom_reported (chains : list N) (id : nat) (leaves : list PoolRebalanceLeaf) :
  NoDup chains →
  bundleFrom maxTokens ledger chains id leaves →
  NoDup (reportedBuckets leaves)
  ∧ ∀ c t, (c, t) ∈ reportedBuckets leaves ↔ c ∈ chains ∧ is_Some (bucket ledger c t).
Proof.
  revert id leaves. induction chains as [|chain chains IH]; intros id leaves Hnd; simpl.
  - intros ->. split; [constructor|]. intros c t. split.
    + intros Hin. by apply elem_of_nil in Hin.
    + intros [Hin _]. by apply elem_of_nil in Hin.
  - apply NoDup_cons in Hnd as [Hnot Hnd].
    intros (forChain & mine & others & Hchain & -> & Hmine & Hothers).
    destruct (IH _ _ Hnd Hothers) as [Hnd' Hiff].
    apply leavesFrom_reported in Hmine. rewrite drop_0 in Hmine.
    rewrite reportedBuckets_app, Hmine.
    assert (∀ t, t ∈ sortAddresses (objectKeys forChain) ↔ is_Some (bucket ledger chain t))
      as Hkeys.
    { intros t. unfold sortAddresses, bucket. rewrite elem_of_sorted_keys, Hchain. done. }
    split.
    + apply NoDup_app. split; [|split; [|done]].
      * apply NoDup_fmap_2; [by intros ?? [=]|]. apply NoDup_sorted_keys.
      * intros [c t] Hhere Hthere.
        apply list_elem_of_fmap in Hhere as (t' & [= -> ->] & _).
        apply Hiff in Hthere as [? _]. done.
    + intros c t. rewrite elem_of_app, Hiff, list_elem_of_fmap. split.
      * intros [(t' & [= -> ->] & Ht)|[Hc Hb]].
        -- split; [by left | by apply Hkeys].
        -- split; [by right | done].
      * intros [Hc Hb]. apply elem_of_cons in Hc as [->|Hc].
        -- left. exists t. split; [done | by apply Hkeys].
        -- right. done.
Qed.

End LeafCoverage.

Section LeafCounts.

Context `{ObjectKeys}.
Variable latestMainnetBlock : N.
Variable ledger lpFees : gmap N (gmap N Z).
Variable configStoreClient : AcrossConfigStoreClient.
Variable maxL1TokenCount : option nat.
Variable tokenTransferThreshold : option (gmap N Z).

Let maxTokens : nat :=
  maxL1TokensPerLeaf latestMainnetBlock configStoreClient maxL1TokenCount.
Let built : Outcome (list PoolRebalanceLeaf) :=
  constructPoolRebalanceLeaves latestMainnetBlock ledger lpFees configStoreClient
    maxL1TokenCount tokenTransferThreshold.

(** X10: the returned leaves report every bucket of the running balances
    once, and nothing else: the (chain, token) pairs read off the leaves are
    free of repeats and are exactly the buckets of the ledger. *)
Theorem leaves_report_every_bucket_once (leaves : list PoolRebalanceLeaf) :
  built = Returns leaves →
  NoDup (reportedBuckets leaves)
  ∧ ∀ c t, (c, t) ∈ reportedBuckets leaves ↔ is_Some (bucket ledger c t).
Proof.
  intros Hbuilt. apply constructPoolRebalanceLeaves_Returns in Hbuilt.
  apply bundleFrom_reported in Hbuilt as [Hnd Hiff]; [|apply NoDup_sorted_keys].
  split; [done|]. intros c t. rewrite Hiff. unfold sortChainIds.
  rewrite elem_of_sorted_keys. split; [by intros [_ ?]|].
  intros Hbucket. split; [|done]. unfold bucket in Hbucket.
  destruct (ledger !! c); [by eexists | by destruct Hbucket].
Qed.

(** X11: a chain of [n] tokens gets [ceil (n / max)] leaves, [max] being the
    leaf size in force: none for a chain without tokens, and no trailing
    empty leaf when [max] divides [n]. *)
Theorem leaves_per_chain (leaves : list PoolRebalanceLeaf) (chain : N)
    (forChain : gmap N Z) :
  built = Returns leaves →
  ledger !! chain = Some forChain →
  length (filter (λ leaf, chainId leaf = chain) leaves)
  = ((size forChain + maxTokens - 1) / maxTokens)%nat.
Proof.
  intros Hbuilt Hchain. apply constructPoolRebalanceLeaves_Returns in Hbuilt.
  destruct (bundleFrom_filter _ _ _ _ _ chain (NoDup_sorted_keys ledger)
              (proj2 (elem_of_sorted_keys ledger chain) (mk_is_Some _ _ Hchain)) Hbuilt)
    as (forChain' & id' & Hchain' & Hfrom).
  assert (forChain' = forChain) as -> by congruence.
  apply leavesFrom_count in Hfrom. rewrite Hfrom. unfold sortAddresses.
  by rewrite length_sorted_keys.
Qed.

End LeafCounts.

(** ** When the leaf builder does not return leaves *)

Lemma sorted_keys_nil `{ObjectKeys} {V : Type} (m : gmap N V) :
  merge_sort N.le (objectKeys m) = [] ↔ m = ∅.
Proof.
  rewrite <-length_zero_iff_nil, length_sorted_keys. apply map_size_empty_iff.
Qed.

Section LeafBuilderStops.

Context `{ObjectKeys}.
Variable latestMainnetBlock : N.
Variable ledger lpFees : gmap N (gmap N Z).
Variable configStoreClient : AcrossConfigStoreClient.
Variable maxL1TokenCount : option nat.
Variable tokenTransferThreshold : option (gmap N Z).

Let maxTokens : nat :=
  maxL1TokensPerLeaf latestMainnetBlock configStoreClient maxL1TokenCount.
Let loop :=
  leafLoop latestMainnetBlock ledger lpFees configStoreClient maxL1TokenCount
    tokenTransferThreshold.
Let forChains :=
  forEachChain latestMainnetBlock ledger lpFees configStoreClient maxL1TokenCount
    tokenTransferThreshold.
Let built : Outcome (list PoolRebalanceLeaf) :=
  constructPoolRebalanceLeaves latestMainnetBlock ledger lpFees configStoreClient
    maxL1TokenCount tokenTransferThreshold.

Lemma forEachChain_no_tokens (chains : list N) (leaves : list PoolRebalanceLeaf) :
  (∀ chain, chain ∈ chains → ledger !! chain = Some ∅) →
  forChains chains leaves = Returns leaves.
Proof.
  induction chains as [|chain chains IH]; intros Hempty; [done|]. simpl.
  unfold leavesForChain. rewrite (Hempty chain) by (by left).
  unfold sortAddresses. rewrite (proj2 (sorted_keys_nil ∅) eq_refl). simpl.
  apply IH. intros chain' Hin. apply Hempty. by right.
Qed.

(** X12: when no chain of the running balances holds a token (the ledger is
    empty, or its chains are), the builder returns no leaf, whatever the
    thresholds table, absent or not, and whatever the leaf size. *)
Theorem no_tokens_no_leaves :
  (∀ chain forChain, ledger !! chain = Some forChain → forChain = ∅) →
  built = Returns [].
Proof.
  intros Hempty. apply forEachChain_no_tokens. intros chain Hin.
  unfold sortChainIds in Hin. apply elem_of_sorted_keys in Hin as [forChain Hchain].
  by rewrite Hchain, (Hempty _ _ Hchain).
Qed.

(** The loop stops the builder at the first chain that holds a token, when
    the turn for such a chain ends in [stop]. *)
Lemma forEachChain_stops (stop : Outcome (list PoolRebalanceLeaf)) (chains : list N)
    (leaves : list PoolRebalanceLeaf) :
  (∀ out, stop ≠ Returns out) →
  (∀ chain forChain leaves',
     ledger !! chain = Some forChain → forChain ≠ ∅ →
     loop chain (sortAddresses (objectKeys forChain))
       (length (sortAddresses (objectKeys forChain))) 0 0 leaves' = stop) →
  (∀ chain, chain ∈ chains → is_Some (ledger !! chain)) →
  (∃ chain forChain, chain ∈ chains ∧ ledger !! chain = Some forChain ∧ forChain ≠ ∅) →
  forChains chains leaves = stop.
Proof.
  intros Hstop Hturn. revert leaves.
  induction chains as [|chain chains IH]; intros leaves Hin Hsome.
  - destruct Hsome as (chain & _ & Hnil & _). by apply elem_of_nil in Hnil.
  - simpl. unfold leavesForChain.
    destruct (Hin chain) as [forChain Hchain]; [by left|]. rewrite Hchain.
    destruct (decide (forChain = ∅)) as [->|Hne].
    + unfold sortAddresses. rewrite (proj2 (sorted_keys_nil ∅) eq_refl). simpl.
      apply IH; [intros chain' Hin'; apply Hin; by right|].
      destruct Hsome as (chain' & forChain' & Hin' & Hchain' & Hne').
      apply elem_of_cons in Hin' as [->|Hin']; [congruence|].
      by exists chain', forChain'.
    + fold loop. rewrite (Hturn _ _ _ Hchain Hne).
      destruct stop as [out| |]; [by destruct (Hstop out) | done..].
Qed.

Lemma some_chain_holds_a_token (chain : N) (forChain : gmap N Z) :
  ledger !! chain = Some forChain → forChain ≠ ∅ →
  (∀ chain', chain' ∈ sortChainIds (objectKeys ledger) → is_Some (ledger !! chain'))
  ∧ ∃ chain' forChain',
      chain' ∈ sortChainIds (objectKeys ledger)
      ∧ ledger !! chain' = Some forChain' ∧ forChain' ≠ ∅.
Proof.
  intros Hchain Hne. unfold sortChainIds. split.
  - intros chain'. apply elem_of_sorted_keys.
  - exists chain, forChain. split; [|done]. apply elem_of_sorted_keys. by eexists.
Qed.

(** X13: called without a thresholds table, with a leaf size that is not
    zero, the builder throws a [TypeError] as soon as some chain of the
    running balances holds a token. *)
Theorem absent_thresholds_throw_on_first_token (chain : N) (forChain : gmap N Z) :
  tokenTransferThreshold = None →
  (0 < maxTokens)%nat →
  ledger !! chain = Some forChain → forChain ≠ ∅ →
  built = Throws TypeError.
Proof.
  intros Htable Hpos Hchain Hne.
  destruct (some_chain_holds_a_token chain forChain Hchain Hne) as [Hin Hsome].
  apply forEachChain_stops; [done| |done..].
  intros chain' forChain' leaves' Hchain' Hne'.
  destruct (sortAddresses (objectKeys forChain')) as [|t sorted] eqn:Hsorted.
  { apply sorted_keys_nil in Hsorted. done. }
  unfold loop. simpl. fold maxTokens.
  destruct maxTokens as [|m]; [lia|]. simpl.
  unfold makeLeaf. simpl. unfold transferThresholdFor at 1. by rewrite Htable.
Qed.

(** X14: with a leaf size of zero (no override, or an override of zero, and
    a config store that answers zero) the loop over the first chain that
    holds a token never ends, with or without a thresholds table. *)
Theorem zero_leaf_size_never_returns (chain : N) (forChain : gmap N Z) :
  maxTokens = 0%nat →
  ledger !! chain = Some forChain → forChain ≠ ∅ →
  built = Diverges.
Proof.
  intros Hzero Hchain Hne.
  destruct (some_chain_holds_a_token chain forChain Hchain Hne) as [Hin Hsome].
  apply forEachChain_stops; [done| |done..].
  intros chain' forChain' leaves' Hchain' Hne'.
  apply leafLoop_zero_step; [done|].
  destruct (sortAddresses (objectKeys forChain')) eqn:Hsorted; [|simpl; lia].
  apply sorted_keys_nil in Hsorted. done.
Qed.

End LeafBuilderStops.

(** ** Carried balances, then leaves *)

Section CarriedThenLeaves.

Context `{ObjectKeys}.
Variable lastBalance : N → N → N → Z.
Variable latestMainnetBlock : N.
Variable ledger lpFees : gmap N (gmap N Z).
Variable configStoreClient : AcrossConfigStoreClient.
Variable maxL1TokenCount : option nat.
Variable tokenTransferThreshold : option (gmap N Z).

(** X15: leaves built from a ledger to which the carried balances were added
    report exactly the buckets the ledger had before, what is sent and what
    is carried at a position adding up to the balance of the bucket plus the
    balance carried for it.  A balance carried for a chain and token without
    a bucket of its own appears in no leaf. *)
Theorem carried_balance_alone_makes_no_leaf :
  ∃ ledger',
    addLastRunningBalance lastBalance latestMainnetBlock ledger = (ledger', Returns ())
    ∧ ∀ leaves,
        constructPoolRebalanceLeaves latestMainnetBlock ledger' lpFees configStoreClient
          maxL1TokenCount tokenTransferThreshold = Returns leaves →
        (∀ c t, (c, t) ∈ reportedBuckets leaves ↔ is_Some (bucket ledger c t))
        ∧ (∀ leaf i t,
             leaf ∈ leaves → l1Tokens leaf !! i = Some t →
             ∃ balance netSendAmount runningBalance,
               bucket ledger (chainId leaf) t = Some balance
               ∧ netSendAmounts leaf !! i = Some netSendAmount
               ∧ runningBalances leaf !! i = Some runningBalance
               ∧ netSendAmount + runningBalance
                 = balance + lastBalance latestMainnetBlock (chainId leaf) t).
Proof.
  destruct (forEachRepaymentChain_spec lastBalance latestMainnetBlock
              (objectKeys ledger) ledger) as (ledger' & Hrun & Hbuckets & Hchains).
  { apply NoDup_objectKeys. }
  { intros c. apply elem_of_objectKeys. }
  assert (∀ c t, bucket ledger' c t
                 = (λ balance, balance + lastBalance latestMainnetBlock c t)
                     <$> bucket ledger c t) as Hcarried.
  { intros c t. rewrite Hbuckets. case_decide as Hc; [done|].
    rewrite elem_of_objectKeys in Hc. unfold bucket.
    destruct (ledger !! c) eqn:Hlook; [|done]. exfalso. apply Hc. by eexists. }
  exists ledger'. split; [done|]. intros leaves Hbuilt. split.
  - pose proof (constructPoolRebalanceLeaves_Returns _ _ _ _ _ _ _ Hbuilt) as Hfrom.
    apply bundleFrom_reported in Hfrom as [_ Hiff]; [|apply NoDup_sorted_keys].
    intros c t. rewrite Hiff, Hcarried, fmap_is_Some. unfold sortChainIds.
    rewrite elem_of_sorted_keys. split; [by intros [_ ?]|].
    intros Hbucket. split; [|done]. apply Hchains.
    unfold bucket in Hbucket. destruct (ledger !! c); [by eexists | by destruct Hbucket].
  - intros leaf i t Hleaf Htoken.
    apply forEachChain_reports in Hbuilt; [|constructor].
    rewrite Forall_forall in Hbuilt.
    destruct (Hbuilt leaf Hleaf i t Htoken)
      as (thresholds & _ & balance' & Hbalance' & Hnet & Hrest & _).
    rewrite Hcarried in Hbalance'.
    destruct (bucket ledger (chainId leaf) t) as [balance|]; [|done].
    injection Hbalance' as <-.
    exists balance. eexists. eexists.
    split; [done|]. split; [exact Hnet|]. split; [exact Hrest|].
    unfold getNetSendAmountForL1Token, getRunningBalanceForL1Token.
    set (T := thresholdInForce latestMainnetBlock configStoreClient thresholds t).
    set (B := balance + lastBalance latestMainnetBlock (chainId leaf) t).
    destruct (Z.geb_spec (Z.abs B) T), (Z.ltb_spec (Z.abs B) T); lia.
Qed.

End CarriedThenLeaves.

(** ** The multicall bundle *)

Section MultiCallBundle.

Context {Contract Args Response : Type}.
Variable address : Contract → string.
Variable encodeFunctionData : Contract → string → Args → string.
Variable runTransaction : Contract → string → list (list string) → Response.

Lemma setAdd_elem_of (values set : list string) (x : string) :
  x ∈ foldl MultiCallerClient.setAdd set values ↔ x ∈ set ∨ x ∈ values.
Proof.
  revert set. induction values as [|v values IH]; intros set; simpl.
  - rewrite elem_of_nil. tauto.
  - rewrite IH, elem_of_cons. unfold MultiCallerClient.setAdd.
    case_decide as Hin.
    + split; [tauto|]. intros [?|[->|?]]; tauto.
    + rewrite elem_of_app, list_elem_of_singleton. tauto.
Qed.

Lemma setAdd_NoDup (values set : list string) :
  NoDup set → NoDup (foldl MultiCallerClient.setAdd set values).
Proof.
  revert set. induction values as [|v values IH]; intros set Hset; simpl; [done|].
  apply IH. unfold MultiCallerClient.setAdd. case_decide as Hin; [done|].
  apply NoDup_app. split; [done|]. split; [|apply NoDup_singleton].
  intros x Hx ->%list_elem_of_singleton. done.
Qed.

Lemma setAdd_sublist (values set : list string) :
  ∃ added, foldl MultiCallerClient.setAdd set values = set ++ added
           ∧ added `sublist_of` values.
Proof.
  revert set. induction values as [|v values IH]; intros set; simpl.
  - exists []. by rewrite app_nil_r.
  - unfold MultiCallerClient.setAdd at 2. case_decide as Hin.
    + destruct (IH set) as (added & -> & Hsub). exists added.
      split; [done|]. by apply sublist_cons.
    + destruct (IH (set ++ [v])) as (added & -> & Hsub). exists (v :: added).
      split; [by rewrite <- app_assoc|]. by apply sublist_skip.
Qed.

Lemma setAdd_distinct (values set : list string) :
  NoDup (set ++ values) → foldl MultiCallerClient.setAdd set values = set ++ values.
Proof.
  revert set. induction values as [|v values IH]; intros set Hset; simpl.
  - by rewrite app_nil_r.
  - unfold MultiCallerClient.setAdd at 2. case_decide as Hin.
    + apply NoDup_app in Hset as (_ & Hdisj & _). destruct (Hdisj v Hin). left.
    + rewrite IH; [by rewrite <- app_assoc|]. by rewrite <- app_assoc.
Qed.

Lemma setAdd_snoc (values set : list string) (v : string) :
  foldl MultiCallerClient.setAdd set (values ++ [v])
  = MultiCallerClient.setAdd (foldl MultiCallerClient.setAdd set values) v.
Proof. by rewrite foldl_app. Qed.

(** X16: the check of the targets never rejects a bundle.  A nonempty list
    of transactions is always sent as one multicall to the contract of the
    first transaction, whatever the contracts of the others are; [null] is
    never returned, and an empty list throws. *)
Theorem multicall_bundle_always_goes_to_first_target
    (transactions : list (MultiCallerClient.AugmentedTransaction (Contract:=Contract) (Args:=Args))) :
  MultiCallerClient.buildMultiCallBundle address encodeFunctionData runTransaction transactions
  ≠ Returns None
  ∧ (transactions = [] →
     MultiCallerClient.buildMultiCallBundle address encodeFunctionData runTransaction
       transactions = Throws TypeError)
  ∧ (∀ first rest, transactions = first :: rest →
     MultiCallerClient.buildMultiCallBundle address encodeFunctionData runTransaction
       transactions
     = Returns (Some (runTransaction (MultiCallerClient.contract first) "multicall"
                        [MultiCallerClient.callDataOf encodeFunctionData transactions]))).
Proof.
  assert (∀ first rest,
            MultiCallerClient.buildMultiCallBundle address encodeFunctionData runTransaction
              (first :: rest)
            = Returns (Some (runTransaction (MultiCallerClient.contract first) "multicall"
                               [MultiCallerClient.callDataOf encodeFunctionData
                                  (first :: rest)]))) as Hsent.
  { intros first rest. unfold MultiCallerClient.buildMultiCallBundle.
    rewrite bool_decide_eq_false_2; [done|].
    intros Hall. by apply Forall_inv in Hall. }
  split; [|split].
  - destruct transactions as [|first rest]; [done|]. by rewrite Hsent.
  - by intros ->.
  - intros first rest ->. apply Hsent.
Qed.

(** X17: the call data of a bundle holds each encoded call once, in the order
    in which the calls first occur: it has no duplicates and the same
    members as the list of encoded calls, of which it is a sublist; it is
    that list when the encoded calls are distinct, and a transaction added
    at the end adds its call only if no earlier transaction encodes to it. *)
Theorem call_data_is_deduplicated
    (transactions : list (MultiCallerClient.AugmentedTransaction (Contract:=Contract) (Args:=Args))) :
  let encoded := MultiCallerClient.encodedCalls encodeFunctionData transactions in
  let callData := MultiCallerClient.callDataOf encodeFunctionData transactions in
  NoDup callData
  ∧ (∀ call, call ∈ callData ↔ call ∈ encoded)
  ∧ callData `sublist_of` encoded
  ∧ (NoDup encoded → callData = encoded)
  ∧ (∀ tx,
       let call := encodeFunctionData (MultiCallerClient.contract tx)
                     (MultiCallerClient.method tx) (MultiCallerClient.args tx) in
       MultiCallerClient.callDataOf encodeFunctionData (transactions ++ [tx])
       = if decide (call ∈ encoded) then callData else callData ++ [call]).
Proof.
  intros encoded callData. subst encoded callData.
  unfold MultiCallerClient.callDataOf, MultiCallerClient.spreadSet.
  split; [|split; [|split; [|split]]].
  - apply setAdd_NoDup, NoDup_nil_2.
  - intros call. rewrite setAdd_elem_of, elem_of_nil. tauto.
  - destruct (setAdd_sublist (MultiCallerClient.encodedCalls encodeFunctionData transactions) [])
      as (added & -> & Hsub). done.
  - intros Hdistinct. by rewrite setAdd_distinct.
  - intros tx. cbv zeta. unfold MultiCallerClient.encodedCalls.
    rewrite fmap_app. simpl. rewrite setAdd_snoc.
    unfold MultiCallerClient.setAdd at 1.
    destruct (decide _) as [Hin|Hout], (decide _) as [Hin'|Hout']; try done.
    + exfalso. apply Hout'. apply setAdd_elem_of in Hin as [Hin|Hin]; [|done].
      by apply elem_of_nil in Hin.
    + exfalso. apply Hout. apply setAdd_elem_of. by right.
Qed.

End MultiCallBundle.

(** ** The Optimism finalizer *)

Section OptimismFinalizer.

Context {Message : Type}.
Variable getMessagesByTransaction : string → option (list Message).
Variable getMessageStatus : Message → option N.
Variable MessageStatus : N → option string.
Variable READY_FOR_RELAY : N.

Lemma flatten_foldl {A B : Type} (g : A → list B) (l : list A) (acc : list B) :
  foldl (λ acc x, acc ++ g x) acc l = acc ++ (l ≫= g).
Proof.
  revert acc. induction l as [|x l IH]; intros acc; simpl.
  - by rewrite app_nil_r.
  - by rewrite IH, <- app_assoc.
Qed.

Lemma getCrossChainMessages_Some tokensBridged crossChainMessages :
  Optimism.getCrossChainMessages getMessagesByTransaction tokensBridged
  = Some crossChainMessages →
  ∀ m, m ∈ crossChainMessages
       ↔ Optimism.event m ∈ tokensBridged
         ∧ ∃ messages,
             getMessagesByTransaction (Optimism.transactionHash (Optimism.event m))
             = Some messages
             ∧ Optimism.message m ∈ messages.
Proof.
  unfold Optimism.getCrossChainMessages. intros Hsome.
  apply bind_Some in Hsome as (pairs & Hpairs & [= <-]).
  apply mapM_Some in Hpairs. intros m.
  rewrite (flatten_foldl
             (λ p : list Message * Optimism.TokensBridged,
                (λ x, {| Optimism.event := p.2; Optimism.message := x |}) <$> p.1)).
  simpl. rewrite list_elem_of_bind. split.
  - intros ([messages bridged] & Hm & Hp). simpl in Hm.
    apply list_elem_of_fmap in Hm as (x & -> & Hx). simpl.
    apply list_elem_of_lookup in Hp as [i Hi].
    destruct (Forall2_lookup_r _ _ _ _ _ Hpairs Hi) as (b & Hb & Hfetch).
    apply bind_Some in Hfetch as (messages' & Hfetch & [= <- <-]).
    split; [by eapply list_elem_of_lookup_2|]. by exists messages'.
  - intros (Hevent & messages & Hfetch & Hmessage).
    apply list_elem_of_lookup in Hevent as [i Hi].
    destruct (Forall2_lookup_l _ _ _ _ _ Hpairs Hi) as (p & Hp & Hfetch').
    rewrite Hfetch in Hfetch'. simpl in Hfetch'. injection Hfetch' as <-.
    exists (messages, Optimism.event m). split; [|by eapply list_elem_of_lookup_2].
    simpl. apply list_elem_of_fmap. exists (Optimism.message m).
    split; [by destruct m|done].
Qed.

Lemma getCrossChainMessages_None tokensBridged :
  Optimism.getCrossChainMessages getMessagesByTransaction tokensBridged = None
  ↔ ∃ bridged, bridged ∈ tokensBridged
               ∧ getMessagesByTransaction (Optimism.transactionHash bridged) = None.
Proof.
  unfold Optimism.getCrossChainMessages. rewrite bind_None, mapM_None, Exists_exists.
  split.
  - intros [(bridged & Hin & Hfetch)|(pairs & _ & [=])].
    exists bridged. split; [done|].
    by destruct (getMessagesByTransaction (Optimism.transactionHash bridged)).
  - intros (bridged & Hin & Hfetch). left. exists bridged. by rewrite Hfetch.
Qed.

Lemma getMessageStatuses_Some crossChainMessages messageStatuses :
  Optimism.getMessageStatuses getMessageStatus MessageStatus crossChainMessages
  = Some messageStatuses →
  ∀ s, s ∈ messageStatuses
       ↔ Optimism.withEvent s ∈ crossChainMessages
         ∧ ∃ statusNumber,
             getMessageStatus (Optimism.message (Optimism.withEvent s)) = Some statusNumber
             ∧ Optimism.status s = MessageStatus statusNumber.
Proof.
  unfold Optimism.getMessageStatuses. intros Hsome.
  apply bind_Some in Hsome as (statuses & Hstatuses & [= <-]).
  apply mapM_Some in Hstatuses. intros s.
  rewrite list_elem_of_lookup. split.
  - intros (i & Hi). apply lookup_zip_with_Some in Hi as (n & m & -> & Hn & Hm).
    simpl. split; [by eapply list_elem_of_lookup_2|]. exists n. split; [|done].
    by apply (Forall2_lookup_lr _ _ _ _ _ _ Hstatuses Hm Hn).
  - intros (Hin & n & Hstatus & Hname).
    apply list_elem_of_lookup in Hin as [i Hi]. exists i.
    destruct (Forall2_lookup_l _ _ _ _ _ Hstatuses Hi) as (n' & Hn' & Hstatus').
    rewrite Hstatus in Hstatus'. injection Hstatus' as <-.
    apply lookup_zip_with_Some. exists n, (Optimism.withEvent s).
    split; [|done]. destruct s. simpl in *. by rewrite Hname.
Qed.

Lemma getMessageStatuses_None crossChainMessages :
  Optimism.getMessageStatuses getMessageStatus MessageStatus crossChainMessages = None
  ↔ ∃ m, m ∈ crossChainMessages ∧ getMessageStatus (Optimism.message m) = None.
Proof.
  unfold Optimism.getMessageStatuses. rewrite bind_None, mapM_None, Exists_exists.
  split; [|intros ?; by left].
  by intros [?|(statuses & _ & [=])].
Qed.

(** X18: when the finalizer's query returns, it returns exactly the messages
    of the transactions of the given events whose status, as the messenger
    reports it, bears the name of [READY_FOR_RELAY], each with the event of
    its transaction. *)
Theorem finalizable_messages_are_those_ready_for_relay tokensBridged finalizable :
  Optimism.getOptimismFinalizableMessages getMessagesByTransaction getMessageStatus
    MessageStatus READY_FOR_RELAY tokensBridged = Some finalizable →
  ∀ s, s ∈ finalizable
       ↔ Optimism.event (Optimism.withEvent s) ∈ tokensBridged
         ∧ (∃ messages,
              getMessagesByTransaction
                (Optimism.transactionHash (Optimism.event (Optimism.withEvent s)))
              = Some messages
              ∧ Optimism.message (Optimism.withEvent s) ∈ messages)
         ∧ (∃ statusNumber,
              getMessageStatus (Optimism.message (Optimism.withEvent s))
              = Some statusNumber
              ∧ Optimism.status s = MessageStatus statusNumber
              ∧ MessageStatus statusNumber = MessageStatus READY_FOR_RELAY).
Proof.
  unfold Optimism.getOptimismFinalizableMessages. intros Hsome.
  apply bind_Some in Hsome as (crossChainMessages & Hmessages & Hsome).
  apply bind_Some in Hsome as (messageStatuses & Hstatuses & [= <-]).
  intros s.
  rewrite list_elem_of_filter, (getMessageStatuses_Some _ _ Hstatuses),
    (getCrossChainMessages_Some _ _ Hmessages).
  split.
  - intros (Hready & (Hevent & Hfetched) & n & Hstatus & Hname).
    split; [done|]. split; [done|]. exists n. by rewrite <- Hname.
  - intros (Hevent & Hfetched & n & Hstatus & Hname & Hready).
    split; [by rewrite Hname|]. split; [done|]. by exists n.
Qed.

(** X19: the finalizer's query is rejected exactly when one query of the
    messenger is: the messages of the transaction of one of the events, or
    the status of one message of such a transaction.  No message is then
    returned, ready or not. *)
Theorem one_rejected_query_rejects_all tokensBridged :
  Optimism.getOptimismFinalizableMessages getMessagesByTransaction getMessageStatus
    MessageStatus READY_FOR_RELAY tokensBridged = None
  ↔ ∃ bridged,
      bridged ∈ tokensBridged
      ∧ (getMessagesByTransaction (Optimism.transactionHash bridged) = None
         ∨ ∃ messages m,
             getMessagesByTransaction (Optimism.transactionHash bridged) = Some messages
             ∧ m ∈ messages ∧ getMessageStatus m = None).
Proof.
  unfold Optimism.getOptimismFinalizableMessages. rewrite bind_None. split.
  - intros [Hnone|(crossChainMessages & Hmessages & Hnone)].
    + apply getCrossChainMessages_None in Hnone as (bridged & Hin & Hfetch).
      exists bridged. split; [done|]. by left.
    + apply bind_None in Hnone as [Hnone|(messageStatuses & _ & [=])].
      apply getMessageStatuses_None in Hnone as (m & Hm & Hstatus).
      apply (getCrossChainMessages_Some _ _ Hmessages) in Hm
        as (Hevent & messages & Hfetch & Hmessage).
      exists (Optimism.event m). split; [done|]. right.
      by exists messages, (Optimism.message m).
  - intros (bridged & Hin & [Hfetch|(messages & m & Hfetch & Hm & Hstatus)]).
    + left. apply getCrossChainMessages_None. by exists bridged.
    + destruct (Optimism.getCrossChainMessages getMessagesByTransaction tokensBridged)
        as [crossChainMessages|] eqn:Hmessages; [right|by left].
      exists crossChainMessages. split; [done|]. apply bind_None. left.
      apply getMessageStatuses_None.
      exists {| Optimism.event := bridged; Optimism.message := m |}.
      split; [|done]. apply (getCrossChainMessages_Some _ _ Hmessages).
      split; [done|]. by exists messages.
Qed.

End OptimismFinalizer.

(** * The further properties at the sample inputs *)

(** The 40 reserved for the slow fill are taken back from the bucket of its
    destination chain and settlement token. *)
Lemma excess_over_all_fills_witness :
  balanceOf
    (subtractExcessFromPreviousSlowFillsFromRunningBalances knownHistory sampleHub
       [partialFill; completingFill] [10%N] ∅).1 10 107 = -40.
Proof.
  destruct (subtractExcessFromPreviousSlowFillsFromRunningBalances knownHistory sampleHub
              [partialFill; completingFill] [10%N] ∅) as [ledger' outcome] eqn:Hrun.
  assert (outcome = Returns ()) as ->.
  { apply (f_equal snd) in Hrun. vm_compute in Hrun. by rewrite <- Hrun. }
  simpl.
  rewrite (excess_subtracted_over_all_fills knownHistory sampleHub
             [partialFill; completingFill] [10%N] ∅ ledger' Hrun 10%N 107%N).
  reflexivity.
Defined.

Lemma no_correction_witness :
  subtractExcessFromPreviousSlowFillsFromRunningBalances freshHistory sampleHub
    [completingFill; slowCompletingFill] [10%N] ∅ = (∅, Returns ()).
Proof.
  apply (no_correction_without_cross_window_completion freshHistory sampleHub
           [completingFill; slowCompletingFill] [10%N] ∅).
  intros fill Hin. right.
  apply elem_of_cons in Hin as [->|Hin]; [reflexivity|].
  apply list_elem_of_singleton in Hin as ->. reflexivity.
Defined.

(** The 40 taken back for the first deposit stay booked when the second
    deposit fails, and the fill after it, which would take back 40 more, is
    not reached. *)
Lemma failed_correction_witness :
  subtractExcessFromPreviousSlowFillsFromRunningBalances patchyHistory sampleHub
    [partialFill; completingFill; otherCompletingFill; completingFill] [10%N] ∅
  = (updateRunningBalance ∅ 10 107 (-40), Throws missingLastFill)
  ∧ balanceOf (updateRunningBalance ∅ 10 107 (-40)) 10 107 = -40
  ∧ balanceOf
      (subtractExcessForFill patchyHistory sampleHub
         [partialFill; completingFill; otherCompletingFill; completingFill] [10%N]
         (updateRunningBalance ∅ 10 107 (-40)) completingFill).1 10 107 = -80.
Proof.
  split; [|split; reflexivity].
  apply (failed_correction_keeps_earlier_adjustments patchyHistory sampleHub
           [partialFill; completingFill; otherCompletingFill; completingFill] [10%N]
           [partialFill; completingFill] [completingFill] otherCompletingFill
           ∅ (updateRunningBalance ∅ 10 107 (-40))).
  - reflexivity.
  - reflexivity.
  - reflexivity.
  - discriminate.
  - reflexivity.
Defined.

(** The second token of the second leaf: the 50 of the bucket (10, 2) are
    sent, nothing is carried. *)
Lemma leaves_report_witness :
  ∃ leaf netSendAmount runningBalance,
    sampleLeaves !! 1%nat = Some leaf
    ∧ netSendAmounts leaf !! 1%nat = Some netSendAmount
    ∧ runningBalances leaf !! 1%nat = Some runningBalance
    ∧ netSendAmount + runningBalance = 50.
Proof.
  destruct (sampleLeaves !! 1%nat) as [leaf|] eqn:Hleaf; [|discriminate].
  destruct (leaves_report_balances_and_fees (H:=mapOrderKeys) 0 sampleLedger sampleFees
              sampleConfig (Some 2%nat) (Some sampleThresholds) sampleLeaves leaf 1 2%N)
    as (thresholds & balance & netSendAmount & runningBalance
        & _ & _ & Hbalance & Hnet & Hcarried & Hsum & _).
  - vm_compute. reflexivity.
  - by eapply list_elem_of_lookup_2.
  - injection Hleaf as <-. reflexivity.
  - exists leaf, netSendAmount, runningBalance.
    split; [done|]. split; [done|]. split; [done|].
    injection Hleaf as <-. rewrite Hsum.
    vm_compute in Hbalance. by injection Hbalance as <-.
Defined.

Lemma every_bucket_once_witness :
  NoDup (reportedBuckets sampleLeaves)
  ∧ ∀ c t, (c, t) ∈ reportedBuckets sampleLeaves ↔ is_Some (bucket sampleLedger c t).
Proof.
  apply (leaves_report_every_bucket_once (H:=mapOrderKeys) 0 sampleLedger sampleFees
           sampleConfig (Some 2%nat) (Some sampleThresholds)).
  vm_compute. reflexivity.
Defined.

(** Five tokens in leaves of two: three leaves. *)
Lemma leaves_per_chain_witness :
  length (filter (λ leaf, chainId leaf = 10%N) sampleLeaves) = 3%nat.
Proof.
  rewrite (leaves_per_chain (H:=mapOrderKeys) 0 sampleLedger sampleFees sampleConfig
             (Some 2%nat) (Some sampleThresholds) sampleLeaves 10%N
             (list_to_map [(5%N, 100); (1%N, -7); (9%N, 3); (4%N, 0); (2%N, 50)])).
  - vm_compute. reflexivity.
  - vm_compute. reflexivity.
  - reflexivity.
Defined.

Lemma no_tokens_witness :
  constructPoolRebalanceLeaves (H:=mapOrderKeys) 0 {[ 3%N := ∅ ]} sampleFees sampleConfig
    None None = Returns [].
Proof.
  apply (no_tokens_no_leaves (H:=mapOrderKeys) 0 {[ 3%N := ∅ ]} sampleFees sampleConfig
           None None).
  intros chain forChain Hchain. by apply lookup_singleton_Some in Hchain as [_ <-].
Defined.

Lemma absent_thresholds_witness :
  constructPoolRebalanceLeaves (H:=mapOrderKeys) 0 sampleLedger sampleFees sampleConfig
    (Some 2%nat) None = Throws TypeError.
Proof.
  apply (absent_thresholds_throw_on_first_token (H:=mapOrderKeys) 0 sampleLedger
           sampleFees sampleConfig (Some 2%nat) None 3%N
           (list_to_map [(8%N, 20); (6%N, -30)])).
  - reflexivity.
  - simpl. lia.
  - reflexivity.
  - intros Hempty. apply (f_equal (λ forChain : gmap N Z, forChain !! 8%N)) in Hempty.
    discriminate Hempty.
Defined.

Lemma zero_leaf_size_witness :
  constructPoolRebalanceLeaves (H:=mapOrderKeys) 0 sampleLedger sampleFees
    {| getMaxRefundCountForRelayerRefundLeafForBlock := λ block, 0%nat;
       getTokenTransferThresholdForBlock := λ token block, 10 |}
    (Some 0%nat) (Some sampleThresholds) = Diverges.
Proof.
  apply (zero_leaf_size_never_returns (H:=mapOrderKeys) 0 sampleLedger sampleFees
           {| getMaxRefundCountForRelayerRefundLeafForBlock := λ block, 0%nat;
              getTokenTransferThresholdForBlock := λ token block, 10 |}
           (Some 0%nat) (Some sampleThresholds) 3%N
           (list_to_map [(8%N, 20); (6%N, -30)])).
  - reflexivity.
  - reflexivity.
  - intros Hempty. apply (f_equal (λ forChain : gmap N Z, forChain !! 8%N)) in Hempty.
    discriminate Hempty.
Defined.

(** Of the messages 1 and 2 of the transaction 0xa, the message 1 is
    returned: its status number bears the name of [READY_FOR_RELAY]. *)
Lemma finalizable_messages_witness :
  ∃ statusNumber,
    sampleMessageStatus 1 = Some statusNumber
    ∧ sampleStatusName statusNumber = sampleStatusName 4.
Proof.
  destruct (proj1 (finalizable_messages_are_those_ready_for_relay
                     sampleMessagesByTransaction sampleMessageStatus sampleStatusName 4%N
                     [sampleBridged "0xa"] [sampleReadyMessage] eq_refl
                     sampleReadyMessage)
              (list_elem_of_here _ _))
    as (_ & _ & statusNumber & Hstatus & _ & Hready).
  by exists statusNumber.
Defined.
